(** * sqlm: transaction runner and dynamic row scanner

    A shallow embedding of the Go package [sqlm] (files [any.go], [tx.go]
    and the pool opener) together with the part of [database/sql],
    [errors], [fmt] and [reflect] that the package calls.

    Conventions.
    - A Go [error] interface value is an [option error]; [None] is [nil].
    - A Go function that may panic returns an [outcome]: either it
      returns normally or it unwinds with a [fault].
    - Objects with mutable state ([*sql.Rows], [*sql.Tx]) are records that
      are passed through every method call; each carries a log of the calls
      made on it, oldest first, so that properties such as "released once"
      or "rollback before re-raise" can be stated on the log. *)

From stdpp Require Import gmap strings list pretty.
From Equations Require Import Equations.

Set Default Proof Using "Type".
#[local] Set Warnings "-clear-no-such-hyp".
#[local] Set Warnings "-notation-incompatible-prefix".
#[local] Set Warnings "-notation-overridden".
#[local] Set Warnings "-register-all".

(** * The embedding *)

(** ** Errors ([errors], [fmt]) *)

(** The three shapes of error value the package meets:
    - [errorString]: what [errors.New(text)] and a [fmt.Errorf] without
      [%w] build, a bare text;
    - [wrapError ctx cause]: what [fmt.Errorf(ctx + ": %w", cause)] builds;
    - [joinError errs]: what [errors.Join] builds. *)
#[local] Unset Elimination Schemes.
Inductive error : Type :=
| errorString (text : string)
| wrapError (context : string) (cause : error)
| joinError (errs : list error).
#[local] Set Elimination Schemes.

(** The nested occurrence [list error] needs its own induction scheme. *)
Section error_nested_ind.
Variable P : error → Prop.
Hypothesis Hstr : ∀ text, P (errorString text).
Hypothesis Hwrap : ∀ context cause, P cause → P (wrapError context cause).
Hypothesis Hjoin : ∀ errs, Forall P errs → P (joinError errs).

Fixpoint error_nested_ind (e : error) : P e :=
  match e with
  | errorString text => Hstr text
  | wrapError context cause => Hwrap context cause (error_nested_ind cause)
  | joinError errs =>
      Hjoin errs
        ((fix go (l : list error) : Forall P l :=
            match l with
            | [] => @List.Forall_nil _ P
            | x :: l' => @List.Forall_cons _ P x l' (error_nested_ind x) (go l')
            end) errs)
  end.
End error_nested_ind.

(** [err.Error()]. A join prints its members one per line. *)
Definition newline : string := String (Ascii.ascii_of_nat 10) EmptyString.

Fixpoint Error (e : error) : string :=
  match e with
  | errorString text => text
  | wrapError context cause => context +:+ ": " +:+ Error cause
  | joinError errs =>
      (fix lines (l : list error) : string :=
         match l with
         | [] => ""
         | [x] => Error x
         | x :: l' => Error x +:+ newline +:+ lines l'
         end) errs
  end.

(** Structural equality of error values, standing for Go's [==] on them. *)
Fixpoint error_eqb (a b : error) : bool :=
  match a, b with
  | errorString s, errorString t => String.eqb s t
  | wrapError c x, wrapError d y => String.eqb c d && error_eqb x y
  | joinError xs, joinError ys =>
      (fix all2 (l : list error) (r : list error) : bool :=
         match l, r with
         | [], [] => true
         | x :: l', y :: r' => error_eqb x y && all2 l' r'
         | _, _ => false
         end) xs ys
  | _, _ => false
  end.

(** [errors.Is(err, target)]: [target] occurs in the tree of [err], which is
    walked through [Unwrap() error] and [Unwrap() []error]. *)
Fixpoint errors_Is (err target : error) : bool :=
  error_eqb err target ||
  match err with
  | errorString _ => false
  | wrapError _ cause => errors_Is cause target
  | joinError errs =>
      (fix any_of (l : list error) : bool :=
         match l with
         | [] => false
         | x :: l' => errors_Is x target || any_of l'
         end) errs
  end.

(** [errors.Unwrap(err)]: only an error with an [Unwrap() error] method has
    one; a join has [Unwrap() []error] and so unwraps to [nil]. *)
Definition errors_Unwrap (err : error) : option error :=
  match err with
  | wrapError _ cause => Some cause
  | _ => None
  end.

(** [errors.Join(errs...)]: nil members are dropped; the result is nil when
    none is left, and a fresh join otherwise, also around a single member. *)
Definition errors_Join (errs : list (option error)) : option error :=
  match omap id errs with
  | [] => None
  | es => Some (joinError es)
  end.

(** [fmt.Errorf(context + ": %w", err)]. *)
Definition fmt_Errorf_w (context : string) (err : error) : error :=
  wrapError context err.

(** Sentinels of the standard library. *)
Definition sql_ErrNoRows : error := errorString "sql: no rows in result set".
Definition io_EOF : error := errorString "EOF".
Definition errRowsClosed : error := errorString "sql: Rows are closed".

(** ** Faults (panics) *)

(** What a panic carries: an error value or a text. *)
Inductive fault : Type :=
| fault_error (e : error)
| fault_string (s : string).

(** The [%v] rendering of a recovered value. *)
Definition Sprint (r : fault) : string :=
  match r with
  | fault_error e => Error e
  | fault_string s => s
  end.

(** [fmt.Errorf("%v", r)]: no [%w], hence a bare text. *)
Definition fmt_Errorf_v (r : fault) : error := errorString (Sprint r).

Inductive outcome (A : Type) : Type :=
| Return (a : A)
| Panic (r : fault).
Arguments Return {A} a.
Arguments Panic {A} r.

(** ** Values ([any], [reflect], [database/sql/driver]) *)

(** [reflect.Type], as far as a driver reports scan types: the types of the
    driver values, the empty interface, and any other named type. *)
Inductive rtype : Type :=
| int64_t | float64_t | bool_t | string_t | bytes_t | time_t
| interface_t
| named_t (name : string).

(** [reflect.Value]. The package only builds zero values, which their type
    determines. *)
Record Value : Type := { Value_Type : rtype }.

(** [reflect.Zero(typ)]: a [Value] (not a pointer) for the zero value of
    [typ]; it is neither addressable nor settable. *)
Definition reflect_Zero (typ : rtype) : Value := {| Value_Type := typ |}.

(** A value of interface type [any]: the driver values ([int64], [float64]
    by its bits, [bool], [[]byte], [string], [time.Time] by its nanoseconds,
    [nil]), a boxed [reflect.Value], and a pointer [*any] to a cell. *)
Inductive any : Type :=
| nil_any
| int64 (n : Z)
| float64 (bits : Z)
| bool_v (b : bool)
| bytes (b : list Byte.byte)
| string_v (s : string)
| time_Time (ns : Z)
| boxed_Value (v : Value)
| pointer (cell : nat).

(** [*sql.ColumnType], with the two methods the package calls. *)
Record ColumnType : Type := { Name : string; ScanType : rtype }.

(** ** The row cursor ([*sql.Rows]) *)

(** The driver's side of a cursor ([driver.Rows]): what it will answer. *)
Record driverRows : Type := {
  Columns : list ColumnType;
  (** the rows it yields, first to last *)
  data : list (list any);
  (** what its [Next] answers after the last row: [None] is [io.EOF], the
      regular end; [Some e] is a fault met while streaming *)
  stream_fault : option error;
  (** another result set follows this one *)
  HasNextResultSet : bool;
  (** what its [Close] answers *)
  driver_Close : option error;
}.

(** A call made on the cursor, with what it answered. [call_release] is the
    driver cursor being given back ([rowsi.Close()]). *)
Inductive call : Type :=
| call_ColumnTypes (err : option error)
| call_Next (ok : bool)
| call_Scan (dest : list any) (err : option error)
| call_Close (err : option error)
| call_Err (err : option error)
| call_release (err : option error).

Record Rows : Type := {
  rowsi : driverRows;
  (** rows the driver has not handed over yet *)
  pending : list (list any);
  closed : bool;
  lastcols : option (list any);
  lasterr : option error;
  calls : list call;
}.

Definition log (c : call) (rs : Rows) : Rows :=
  {| rowsi := rowsi rs; pending := pending rs; closed := closed rs;
     lastcols := lastcols rs; lasterr := lasterr rs;
     calls := calls rs ++ [c] |}.

Definition new_Rows (ri : driverRows) : Rows :=
  {| rowsi := ri; pending := data ri; closed := false;
     lastcols := None; lasterr := None; calls := [] |}.

(** [rs.lasterrOrErrLocked(err)]. *)
Definition lasterrOrErr (rs : Rows) (err : option error) : option error :=
  match lasterr rs with
  | Some e => if error_eqb e io_EOF then err else Some e
  | None => err
  end.

(** [rs.close(err)]: does nothing on a closed cursor; otherwise marks it
    closed, gives the driver cursor back and answers the driver's error. *)
Definition Rows_close (err : option error) (rs : Rows) : option error * Rows :=
  if closed rs then (None, rs)
  else
    let first := match lasterr rs with Some e => Some e | None => err end in
    let cerr := driver_Close (rowsi rs) in
    let rs1 :=
      {| rowsi := rowsi rs; pending := pending rs; closed := true;
         lastcols := lastcols rs; lasterr := first;
         calls := calls rs ++ [call_release cerr] |} in
    (cerr,
     {| rowsi := rowsi rs1; pending := pending rs1; closed := true;
        lastcols := lastcols rs1; lasterr := lasterrOrErr rs1 cerr;
        calls := calls rs1 |}).

(** [rows.Close()]. *)
Definition Rows_Close (rs : Rows) : option error * Rows :=
  let '(err, rs1) := Rows_close None rs in
  (err, log (call_Close err) rs1).

(** [rows.Err()]. *)
Definition Rows_Err (rs : Rows) : option error * Rows :=
  let err := lasterrOrErr rs None in
  (err, log (call_Err err) rs).

(** [rows.ColumnTypes()]. *)
Definition Rows_ColumnTypes (rs : Rows) : (list ColumnType * option error) * Rows :=
  let ret :=
    if closed rs then ([], lasterrOrErr rs (Some errRowsClosed))
    else (Columns (rowsi rs), None) in
  (ret, log (call_ColumnTypes ret.2) rs).

(** The buffer [rs.lastcols] has one slot per column; the driver's [Next]
    fills it from its row. *)
Definition fill_lastcols (n : nat) (row : list any) : list any :=
  take n (row ++ replicate n nil_any).

(** [rows.Next()]. The cursor closes itself when the driver reports a fault,
    and at the end of the rows unless another result set follows. *)
Definition Rows_Next (rs : Rows) : bool * Rows :=
  if closed rs then (false, log (call_Next false) rs)
  else
    let n := length (Columns (rowsi rs)) in
    match pending rs with
    | row :: rest =>
        (true,
         log (call_Next true)
           {| rowsi := rowsi rs; pending := rest; closed := false;
              lastcols := Some (fill_lastcols n row); lasterr := None;
              calls := calls rs |})
    | [] =>
        let buf := match lastcols rs with
                   | Some b => b
                   | None => replicate n nil_any
                   end in
        let derr := match stream_fault (rowsi rs) with
                    | Some e => e
                    | None => io_EOF
                    end in
        let rs1 :=
          {| rowsi := rowsi rs; pending := []; closed := false;
             lastcols := Some buf; lasterr := Some derr;
             calls := calls rs |} in
        let doClose :=
          match stream_fault (rowsi rs) with
          | Some _ => true
          | None => negb (HasNextResultSet (rowsi rs))
          end in
        (false,
         log (call_Next false)
           (if doClose then (Rows_close None rs1).2 else rs1))
    end.

(** [convertAssignRows(dest, src, rows)]: a [*any] destination takes the
    driver value as it is; a destination that is not a pointer is refused. *)
Definition convertAssign (dest src : any) : option error :=
  match dest with
  | pointer _ => None
  | _ => Some (errorString "destination not a pointer")
  end.

Definition dquote : string := String (Ascii.ascii_of_nat 34) EmptyString.

(** The loop of [Scan] over the columns, from column [i] on. *)
Fixpoint scan_columns (i : nat) (names : list string) (dest src : list any)
  : option error :=
  match dest, src with
  | d :: dest', sv :: src' =>
      match convertAssign d sv with
      | Some err =>
          Some (wrapError
                  ("sql: Scan error on column index " +:+ pretty i +:+
                   ", name " +:+ dquote +:+ default "" (names !! i) +:+ dquote)
                  err)
      | None => scan_columns (S i) names dest' src'
      end
  | _, _ => None
  end.

(** [rows.Scan(dest...)]. *)
Definition Rows_Scan (dest : list any) (rs : Rows) : option error * Rows :=
  let err :=
    match lasterrOrErr rs None with
    | Some e => Some e
    | None =>
        if closed rs then lasterrOrErr rs (Some errRowsClosed)
        else
          match lastcols rs with
          | None => Some (errorString "sql: Scan called without calling Next")
          | Some src =>
              if decide (length dest = length src)
              then scan_columns 0 (Name <$> Columns (rowsi rs)) dest src
              else Some (errorString
                           ("sql: expected " +:+ pretty (length src) +:+
                            " destination arguments in Scan, not " +:+
                            pretty (length dest)))
          end
    end in
  (err, log (call_Scan dest err) rs).

(** ** The transaction capability (interface [Tx]) *)

(** [context.Context], by what the cursor's watcher sees once a query has
    returned: [Some e] when the context is done by then, with [e] its
    [Err()]. *)
Record context : Type := { ctx_Err : option error }.

(** An implementation of [Tx], by what its [QueryContext] answers: an error
    or a driver cursor. *)
Record Tx : Type := {
  Tx_query : context → string → list any → driverRows + error
}.

(** [conn.QueryContext(ctx, query, args...)]. When the context is done, the
    watcher [database/sql] starts for the cursor closes it with the context's
    error. *)
Definition Tx_QueryContext (conn : Tx) (ctx : context) (query : string)
    (args : list any) : Rows + error :=
  match Tx_query conn ctx query args with
  | inr err => inr err
  | inl ri =>
      match ctx_Err ctx with
      | Some e => inl (Rows_close (Some e) (new_Rows ri)).2
      | None => inl (new_Rows ri)
      end
  end.

(** ** [any.go] *)

(** [type Any map[string]any]. *)
Abbreviation Any := (gmap string any).

(** The renderings [Any.String] leaves to the standard library: the
    [String()] method of the two values here that are a [fmt.Stringer],
    [time.Time] and [reflect.Value], and [fmt.Sprintf("%v", v)]. *)
Record fmt_lib : Type := {
  Time_String : Z → string;
  Value_String : Value → string;
  Sprintf_v : any → string;
}.

(** [Any.String]: the type switch on [m[key]], which is nil for a key the
    map does not hold. The case [fmt.Stringer] comes before the case
    [string]. *)
Definition Any_String (fmt : fmt_lib) (m : Any) (key : string) : string :=
  match m !! key with
  | None | Some nil_any => ""
  | Some (time_Time ns) => Time_String fmt ns
  | Some (boxed_Value v) => Value_String fmt v
  | Some (string_v s) => s
  | Some v => Sprintf_v fmt v
  end.

(** [makeRs]: a slice of [len(cols)] nil interfaces, whose slot [pos] is then
    set to [reflect.Zero(col.ScanType())] for each column in turn. *)
Definition makeRs (cols : list ColumnType) : list any :=
  foldl (λ res pc, <[pc.1 := boxed_Value (reflect_Zero (ScanType pc.2))]> res)
        (replicate (length cols) nil_any)
        (imap pair cols).

(** [makeAny]: [res[col.Name()] = values[pos]] for each column in turn.
    [None] stands for the run-time panic of an index out of range. *)
Definition makeAny (cols : list ColumnType) (values : list any) : option Any :=
  foldl (λ acc pc,
           res ← acc;
           v ← values !! pc.1;
           Some (<[Name pc.2 := v]> res))
        (Some ∅)
        (imap pair cols).

Definition index_out_of_range : fault :=
  fault_error (errorString "runtime error: index out of range").

(** How the [for rows.Next()] loop of [queryAnyRows] is left. *)
Inductive loop_exit : Type :=
| loop_done (res : list Any)
| loop_return (ret : list Any * option error)
| loop_panic (r : fault).

Definition inspect {A} (a : A) : {b | a = b} := exist _ a eq_refl.

(** Lines 62 to 72 of [queryAnyRows]: the loop over the rows. *)
Equations scanLoop (cols : list ColumnType) (single : bool) (res : list Any)
    (rows : Rows) : loop_exit * Rows by wf (length (pending rows)) lt :=
  scanLoop cols single res rows with inspect (Rows_Next rows) := {
    | exist _ (false, rows1) _ => (loop_done res, rows1)
    | exist _ (true, rows1) Hnext
        with inspect (Rows_Scan (makeRs cols) rows1) := {
        | exist _ (Some err, rows2) _ =>
            (loop_return ([], Some (fmt_Errorf_w "rows scanning" err)), rows2)
        | exist _ (None, rows2) Hscan
            with makeAny cols (makeRs cols) := {
            | None => (loop_panic index_out_of_range, rows2)
            | Some rec =>
                if single then (loop_done (res ++ [rec]), rows2)
                else scanLoop cols single (res ++ [rec]) rows2 } } }.
Next Obligation.
  unfold Rows_Next in Hnext. destruct (closed rows); [done|].
  destruct (pending rows) as [|row rest]; [done|].
  injection Hnext as <-. simpl. lia.
Qed.

(** [queryAnyRows] after the query has answered a cursor, up to its
    [return]; the deferred call is not part of it. *)
Definition queryAnyRows_body (single : bool) (rows : Rows)
  : outcome (list Any * option error) * Rows :=
  let '((cols, err), rows) := Rows_ColumnTypes rows in
  match err with
  | Some err => (Return ([], Some (fmt_Errorf_w "columns describing" err)), rows)
  | None =>
      match scanLoop cols single [] rows with
      | (loop_return ret, rows) => (Return ret, rows)
      | (loop_panic r, rows) => (Panic r, rows)
      | (loop_done res, rows) =>
          let '(err, rows) := Rows_Close rows in
          match err with
          | Some err =>
              (Return ([], Some (fmt_Errorf_w "rows closing" err)), rows)
          | None =>
              let '(err, rows) := Rows_Err rows in
              match err with
              | Some err =>
                  (Return ([], Some (fmt_Errorf_w "rows iterating" err)), rows)
              | None => (Return (res, None), rows)
              end
          end
      end
  end.

(** [queryAnyRows]. Next to what it returns, the model answers the cursor
    as the call leaves it ([None] when the query gave none), after the
    deferred [rows.Close()], whose error is dropped. *)
Definition queryAnyRows (ctx : context) (conn : Tx) (query : string)
    (single : bool) (args : list any)
  : outcome (list Any * option error) * option Rows :=
  match Tx_QueryContext conn ctx query args with
  | inr err => (Return ([], Some (fmt_Errorf_w "query executing" err)), None)
  | inl rows =>
      let '(out, rows) := queryAnyRows_body single rows in
      let '(_, rows) := Rows_Close rows in
      (out, Some rows)
  end.

(** [QueryAnyRows]. *)
Definition QueryAnyRows (ctx : context) (conn : Tx) (query : string)
    (args : list any) : outcome (list Any * option error) * option Rows :=
  queryAnyRows ctx conn query false args.

(** [QueryAny]. A nil [Any] is [None]. *)
Definition QueryAny (ctx : context) (conn : Tx) (query : string)
    (args : list any) : outcome (option Any * option error) * option Rows :=
  match queryAnyRows ctx conn query true args with
  | (Panic r, rows) => (Panic r, rows)
  | (Return (_, Some err), rows) => (Return (None, Some err), rows)
  | (Return (res, None), rows) =>
      match res with
      | [] => (Return (None, Some sql_ErrNoRows), rows)
      | r :: _ => (Return (Some r, None), rows)
      end
  end.

(** ** [tx.go] *)

Inductive IsolationLevel : Type :=
| LevelDefault | LevelReadUncommitted | LevelReadCommitted
| LevelWriteCommitted | LevelRepeatableRead | LevelSnapshot
| LevelSerializable | LevelLinearizable.

(** [sql.TxOptions]. *)
Record TxOptions : Type := { Isolation : IsolationLevel; ReadOnly : bool }.

Definition sql_ErrTxDone : error :=
  errorString "sql: transaction has already been committed or rolled back".

(** A call that ends a transaction, with what it answered. *)
Inductive tx_call : Type :=
| call_Commit (err : option error)
| call_Rollback (err : option error).

(** [*sql.Tx]: what the driver will answer to a commit and to a rollback,
    whether the transaction is over, and the calls made so far. *)
Record sql_Tx : Type := {
  driver_Commit : option error;
  driver_Rollback : option error;
  done : bool;
  tx_calls : list tx_call;
}.

(** [tx.Commit()]. *)
Definition Tx_Commit (tx : sql_Tx) : option error * sql_Tx :=
  let err := if done tx then Some sql_ErrTxDone else driver_Commit tx in
  (err,
   {| driver_Commit := driver_Commit tx; driver_Rollback := driver_Rollback tx;
      done := true; tx_calls := tx_calls tx ++ [call_Commit err] |}).

(** [tx.Rollback()]. *)
Definition Tx_Rollback (tx : sql_Tx) : option error * sql_Tx :=
  let err := if done tx then Some sql_ErrTxDone else driver_Rollback tx in
  (err,
   {| driver_Commit := driver_Commit tx; driver_Rollback := driver_Rollback tx;
      done := true; tx_calls := tx_calls tx ++ [call_Rollback err] |}).

(** An implementation of the interface [BeginTx]. *)
Record BeginTx : Type := {
  db_BeginTx : context → TxOptions → sql_Tx + error
}.

(** A unit of work [func(Tx) error]: it returns an error or nil, or panics,
    and leaves the transaction in some state. *)
Definition work : Type := sql_Tx → outcome (option error) * sql_Tx.

(** A panic with a nil error value is raised as a [*runtime.PanicNilError]. *)
Definition PanicNilError : error :=
  errorString "panic called with nil argument".

(** [WithTx]. The deferred function is the [match] on how [f] ended; [r] is
    what [recover()] answers. Next to how the call ends, the model answers
    the transaction as the call leaves it ([None] when none began). *)
Definition WithTx (ctx : context) (db : BeginTx) (f : work)
  : outcome (option error) * option sql_Tx :=
  match db_BeginTx db ctx {| Isolation := LevelSerializable; ReadOnly := false |} with
  | inr err => (Return (Some err), None)
  | inl tx =>
      let '(ended, tx) := f tx in
      match ended with
      | Panic r =>
          let cause := fmt_Errorf_v r in
          let '(rb, tx) := Tx_Rollback tx in
          match errors_Join [Some cause; rb] with
          | Some err => (Panic (fault_error err), Some tx)
          | None => (Panic (fault_error PanicNilError), Some tx)
          end
      | Return (Some err) =>
          let '(rb, tx) := Tx_Rollback tx in
          (Return (errors_Join [Some err; rb]), Some tx)
      | Return None =>
          let '(err, tx) := Tx_Commit tx in
          (Return err, Some tx)
      end
  end.

(** ** The pool opener *)

(** [*sql.DB], by the settings last asked for ([None]: never set). *)
Record DB : Type := {
  db_driverName : string;
  db_dataSourceName : string;
  MaxOpenConns : option Z;
  MaxIdleConns : option Z;
  ConnMaxLifetime : option Z;
}.

(** What [database/sql] and the data source answer: to [sql.Open], and to a
    ping of a pool under a timeout (in nanoseconds). *)
Record sql_env : Type := {
  env_Open : string → string → option error;
  env_Ping : DB → Z → option error;
}.

Definition MySQLDriver : string := "mysql".
Definition MaxConn : Z := 25.
Definition Minute : Z := 60 * 1000000000.
Definition Second : Z := 1000000000.
Definition MaxLifetime : Z := 5 * Minute.
Definition Timeout : Z := 5 * Second.

(** [sql.Open(driverName, dataSourceName)]. *)
Definition sql_Open (env : sql_env) (driverName dataSourceName : string)
  : DB + error :=
  match env_Open env driverName dataSourceName with
  | Some err => inr err
  | None =>
      inl {| db_driverName := driverName; db_dataSourceName := dataSourceName;
             MaxOpenConns := None; MaxIdleConns := None;
             ConnMaxLifetime := None |}
  end.

Definition SetMaxOpenConns (n : Z) (db : DB) : DB :=
  {| db_driverName := db_driverName db;
     db_dataSourceName := db_dataSourceName db;
     MaxOpenConns := Some n;
     MaxIdleConns := MaxIdleConns db;
     ConnMaxLifetime := ConnMaxLifetime db |}.

Definition SetMaxIdleConns (n : Z) (db : DB) : DB :=
  {| db_driverName := db_driverName db;
     db_dataSourceName := db_dataSourceName db;
     MaxOpenConns := MaxOpenConns db;
     MaxIdleConns := Some n;
     ConnMaxLifetime := ConnMaxLifetime db |}.

Definition SetConnMaxLifetime (d : Z) (db : DB) : DB :=
  {| db_driverName := db_driverName db;
     db_dataSourceName := db_dataSourceName db;
     MaxOpenConns := MaxOpenConns db;
     MaxIdleConns := MaxIdleConns db;
     ConnMaxLifetime := Some d |}.

(** [Open]. A nil [*sql.DB] is [None]. *)
Definition Open (env : sql_env) (driverName dataSourceName : string)
    (maxConn : Z) (maxLifetime pingTimeout : Z) : option DB * option error :=
  match sql_Open env driverName dataSourceName with
  | inr err => (None, Some (fmt_Errorf_w "opening database" err))
  | inl db =>
      let db := SetMaxOpenConns maxConn db in
      let db := SetMaxIdleConns maxConn db in
      let db := SetConnMaxLifetime maxLifetime db in
      match env_Ping env db pingTimeout with
      | Some err => (None, Some (fmt_Errorf_w "pinging database" err))
      | None => (Some db, None)
      end
  end.

(** [MySQLOpen]. *)
Definition MySQLOpen (env : sql_env) (dataSourceName : string)
  : option DB * option error :=
  Open env MySQLDriver dataSourceName MaxConn MaxLifetime Timeout.

(** * Vocabulary of the properties *)

(** ** The call log of a cursor *)

Definition is_release (c : call) : bool :=
  match c with call_release _ => true | _ => false end.

Definition is_Scan (c : call) : bool :=
  match c with call_Scan _ _ => true | _ => false end.

Definition is_Next (c : call) : bool :=
  match c with call_Next _ => true | _ => false end.


Fixpoint count_if (p : call → bool) (l : list call) : nat :=
  match l with
  | [] => 0
  | c :: l' => (if p c then 1 else 0) + count_if p l'
  end.

(** The stage of [queryAnyRows] a failed call belongs to, with its cause.
    [Next] answers no error, and what the driver answers when its cursor is
    given back reaches the package through [Close] alone. *)
Definition stage_failure (c : call) : option (string * error) :=
  match c with
  | call_ColumnTypes (Some e) => Some ("columns describing", e)
  | call_Scan _ (Some e) => Some ("rows scanning", e)
  | call_Close (Some e) => Some ("rows closing", e)
  | call_Err (Some e) => Some ("rows iterating", e)
  | _ => None
  end.

Definition no_failure (c : call) : Prop := stage_failure c = None.

(** The call is the driver cursor being given back. *)
Definition released (c : call) : Prop := is_release c = true.


(** The cursor is closed exactly when its driver cursor was given back, and
    that happened once. *)
Definition released_iff_closed (rs : Rows) : Prop :=
  count_if is_release (calls rs) = if closed rs then 1 else 0.

(** Every [Scan] in the log comes right after a [Next] that answered true;
    [after_Next] tells whether the log is entered right after such a one. *)
Fixpoint scan_after_Next (after_Next : bool) (l : list call) : bool :=
  match l with
  | [] => true
  | call_Scan _ _ :: l' => after_Next && scan_after_Next false l'
  | call_Next ok :: l' => scan_after_Next ok l'
  | _ :: l' => scan_after_Next false l'
  end.

(** The log of the cursor keeps every [Scan] right after a [Next] that
    answered true. *)
Definition scans_in_order (rs : Rows) : Prop :=
  scan_after_Next false (calls rs) = true.

(** ** What the scanner calls and returns *)

(** The target [makeRs] allocates for a column. *)
Definition scan_target (col : ColumnType) : any :=
  boxed_Value (reflect_Zero (ScanType col)).

(** What [Scan] answers for a target that is not a pointer. *)
Definition not_a_pointer : error := errorString "destination not a pointer".

(** What the loop may call: [Next], [Scan] on the targets of [makeRs], and,
    inside [Next], the release of the driver cursor. *)
Definition loop_call (cols : list ColumnType) (c : call) : Prop :=
  match c with
  | call_Next _ | call_release _ => True
  | call_Scan dest _ => dest = makeRs cols
  | _ => False
  end.

(** What holds when the loop is left, of the cursor [r.2] and the exit [r.1],
    for a loop entered with the records [res] and the cursor [rows]. *)
Definition loop_post (cols : list ColumnType) (single : bool)
    (res : list Any) (rows : Rows) (r : loop_exit * Rows) : Prop :=
  rowsi r.2 = rowsi rows ∧
  (released_iff_closed rows → released_iff_closed r.2) ∧
  ∃ new,
    calls r.2 = calls rows ++ new ∧
    Forall (loop_call cols) new ∧
    (single = true → count_if is_Next new ≤ 1 ∧ count_if is_Scan new ≤ 1) ∧
    match r.1 with
    | loop_done res' =>
        Forall no_failure new ∧
        ∃ recs, res' = res ++ recs ∧
                Forall (λ rec, makeAny cols (makeRs cols) = Some rec) recs ∧
                length recs = count_if is_Scan new
    | loop_return ret =>
        ∃ new' e, new = new' ++ [call_Scan (makeRs cols) (Some e)] ∧
                  Forall no_failure new' ∧
                  ret = ([], Some (fmt_Errorf_w "rows scanning" e))
    | loop_panic _ => False
    end.

(** The calls [queryAnyRows] makes on its cursor up to its [return], on a
    cursor whose log was [l0], and what it then returns. There are four ways
    out: the columns are not described; a scan fails; the release after the
    loop fails; the end-of-iteration check is reached. *)
Inductive body_path (cols : list ColumnType) (l0 : list call)
    (out : outcome (list Any * option error)) : list call → Prop :=
| path_describe e :
    out = Return ([], Some (fmt_Errorf_w "columns describing" e)) →
    body_path cols l0 out [call_ColumnTypes (Some e)]
| path_scan lnew e :
    Forall (loop_call cols) lnew → Forall no_failure lnew →
    out = Return ([], Some (fmt_Errorf_w "rows scanning" e)) →
    body_path cols l0 out
      (call_ColumnTypes None :: lnew ++ [call_Scan (makeRs cols) (Some e)])
| path_close lnew rel e :
    Forall (loop_call cols) lnew → Forall no_failure lnew →
    Forall released rel →
    out = Return ([], Some (fmt_Errorf_w "rows closing" e)) →
    body_path cols l0 out
      (call_ColumnTypes None :: lnew ++ rel ++ [call_Close (Some e)])
| path_check lnew rel e res :
    Forall (loop_call cols) lnew → Forall no_failure lnew →
    Forall released rel →
    count_if is_release
      (l0 ++ call_ColumnTypes None :: lnew ++ rel ++ [call_Close None]) = 1 →
    Forall (λ rec, makeAny cols (makeRs cols) = Some rec) res →
    length res = count_if is_Scan lnew →
    out = match e with
          | Some err => Return ([], Some (fmt_Errorf_w "rows iterating" err))
          | None => Return (res, None)
          end →
    body_path cols l0 out
      (call_ColumnTypes None :: lnew ++ rel ++ [call_Close None; call_Err e]).

(** A failed call of a stage is what the caller gets, under the stage's
    context. *)
Definition surfaced (out : outcome (list Any * option error)) (c : call) : Prop :=
  ∀ stage e, stage_failure c = Some (stage, e) →
             out = Return ([], Some (fmt_Errorf_w stage e)).

(** The error a call hands to its caller. *)
Definition error_of {A} (out : outcome (A * option error)) : option error :=
  match out with
  | Return (_, err) => err
  | Panic _ => None
  end.

(** A failed call of a stage is the error [err] handed to the caller, under
    the stage's context. *)
Definition reported (err : option error) (c : call) : Prop :=
  ∀ stage e, stage_failure c = Some (stage, e) →
             err = Some (fmt_Errorf_w stage e).


(** ** What the runner and the opener pass on *)

(** The options [WithTx] begins its transaction with. *)
Definition serializable : TxOptions :=
  {| Isolation := LevelSerializable; ReadOnly := false |}.

(** The pool as [Open] sets it up before the ping. *)
Definition configured (maxConn maxLifetime : Z) (db : DB) : DB :=
  SetConnMaxLifetime maxLifetime
    (SetMaxIdleConns maxConn (SetMaxOpenConns maxConn db)).

(** * Fixtures *)

(** Fixtures: a context that is not done, a pool that answers a given
    transaction, and units of work that do nothing but end in a given way. *)
Definition background : context := {| ctx_Err := None |}.

Definition pool_of (tx : sql_Tx) : BeginTx := {| db_BeginTx := λ _ _, inl tx |}.

Definition pool_down (e : error) : BeginTx := {| db_BeginTx := λ _ _, inr e |}.

Definition fresh_tx (commit rollback : option error) : sql_Tx :=
  {| driver_Commit := commit; driver_Rollback := rollback;
     done := false; tx_calls := [] |}.

Definition work_returns (err : option error) : work := λ tx, (Return err, tx).

Definition work_panics (r : fault) : work := λ tx, (Panic r, tx).

Definition boom : error := errorString "boom".
Definition conn_lost : error := errorString "driver: bad connection".

(** Fixtures: a capability that answers a given cursor, or an error, to
    every query; the result set of [SELECT id, name FROM t] over the rows
    (1,"a") and (2,"b"). *)
Definition conn_of (ri : driverRows) : Tx := {| Tx_query := λ _ _ _, inl ri |}.

Definition conn_down (e : error) : Tx := {| Tx_query := λ _ _ _, inr e |}.

Definition id_name : list ColumnType :=
  [ {| Name := "id"; ScanType := int64_t |};
    {| Name := "name"; ScanType := string_t |} ].

Definition two_rows : driverRows :=
  {| Columns := id_name;
     data := [[int64 1; string_v "a"]; [int64 2; string_v "b"]];
     stream_fault := None; HasNextResultSet := false; driver_Close := None |}.

Definition select_id_name : string := "SELECT id, name FROM t".

(** A result set without columns is the one kind whose rows are scanned, so
    it is where records are seen. *)
Definition no_columns : driverRows :=
  {| Columns := []; data := [[]; []];
     stream_fault := None; HasNextResultSet := false; driver_Close := None |}.

(** The same columns and no row. *)
Definition no_rows : driverRows :=
  {| Columns := id_name; data := [];
     stream_fault := None; HasNextResultSet := false; driver_Close := None |}.

(** A result set of zero rows, first of several, whose cursor the driver
    fails to give back. *)
Definition no_rows_close_fails : driverRows :=
  {| Columns := id_name; data := [];
     stream_fault := None; HasNextResultSet := true;
     driver_Close := Some conn_lost |}.

(** The two rows again, with a cursor the driver fails to give back. *)
Definition two_rows_close_fails : driverRows :=
  {| Columns := id_name;
     data := [[int64 1; string_v "a"]; [int64 2; string_v "b"]];
     stream_fault := None; HasNextResultSet := false;
     driver_Close := Some conn_lost |}.

(** A data source that opens and does not answer the ping. *)
Definition env_unreachable : sql_env :=
  {| env_Open := λ _ _, None; env_Ping := λ _ _, Some conn_lost |}.

(** A data source that opens and answers the ping. *)
Definition env_up : sql_env :=
  {| env_Open := λ _ _, None; env_Ping := λ _ _, None |}.

(** Renderings that tell the three apart. *)
Definition fmt_marks : fmt_lib :=
  {| Time_String := λ _, "time"; Value_String := λ _, "value";
     Sprintf_v := λ _, "verb" |}.

(** A unit of work that ends the transaction itself, by a commit, and
    returns [err]. *)
Definition work_commits (err : option error) : work :=
  λ tx, (Return err, (Tx_Commit tx).2).


(** Two columns of one name. *)
Definition id_id : list ColumnType :=
  [ {| Name := "id"; ScanType := int64_t |};
    {| Name := "id"; ScanType := string_t |} ].

(** Three rows without columns. *)
Definition three_bare_rows : driverRows :=
  {| Columns := []; data := [[]; []; []];
     stream_fault := None; HasNextResultSet := false; driver_Close := None |}.

(** * Properties *)

(** ** Each iteration takes a row off the cursor *)

Lemma Rows_Next_pending rs rs1 :
  Rows_Next rs = (true, rs1) → length (pending rs1) < length (pending rs).
Proof.
  unfold Rows_Next. destruct (closed rs); [done|].
  destruct (pending rs) as [|row rest]; [done|].
  intros [= <-]. simpl. lia.
Qed.

Lemma Rows_Scan_pending dest rs err rs1 :
  Rows_Scan dest rs = (err, rs1) → pending rs1 = pending rs.
Proof. unfold Rows_Scan. by intros [= _ <-]. Qed.

(** ** Errors *)

Lemma error_eqb_refl e : error_eqb e e = true.
Proof.
  induction e as [text|context cause IH|errs IH] using error_nested_ind; simpl.
  - apply String.eqb_refl.
  - by rewrite String.eqb_refl, IH.
  - induction IH as [|x l Hx _ IHl]; [done|]. by rewrite Hx, IHl.
Qed.

Lemma errors_Is_refl e : errors_Is e e = true.
Proof. pose proof (error_eqb_refl e) as H. destruct e; simpl in *; by rewrite H. Qed.

(** A wrapped cause stays reachable: its kind is kept. *)
Lemma errors_Is_wrap context cause :
  errors_Is (fmt_Errorf_w context cause) cause = true.
Proof.
  unfold fmt_Errorf_w. simpl. rewrite errors_Is_refl. apply orb_true_r.
Qed.

Lemma errors_Join_first e rb :
  errors_Join [Some e; rb] = Some (joinError (e :: option_list rb)).
Proof. by destruct rb. Qed.

(** ** The scan loop, unfolded once *)

Lemma scanLoop_step cols single res rows :
  scanLoop cols single res rows =
    match Rows_Next rows with
    | (false, rows1) => (loop_done res, rows1)
    | (true, rows1) =>
        match Rows_Scan (makeRs cols) rows1 with
        | (Some err, rows2) =>
            (loop_return ([], Some (fmt_Errorf_w "rows scanning" err)), rows2)
        | (None, rows2) =>
            match makeAny cols (makeRs cols) with
            | None => (loop_panic index_out_of_range, rows2)
            | Some rec =>
                if single then (loop_done (res ++ [rec]), rows2)
                else scanLoop cols single (res ++ [rec]) rows2
            end
        end
    end.
Proof.
  funelim (scanLoop cols single res rows).
  all: match goal with
       | H : Rows_Next _ = _ |- _ => rewrite H
       end; try reflexivity.
  all: unfold Rows_Scan.
  all: match goal with
       | H : _ = _ :> option error |- _ => rewrite H
       end; try reflexivity.
  all: match goal with
       | H : makeAny _ _ = _ |- _ => by rewrite H
       end.
Qed.

(** ** [makeRs] and [makeAny] *)

Lemma makeRs_fold (cols : list ColumnType) k (pre suf : list any) :
  length pre = k → length suf = length cols →
  foldl (λ res pc, <[pc.1 := boxed_Value (reflect_Zero (ScanType pc.2))]> res)
        (pre ++ suf) (imap (λ i c, (k + i, c)) cols)
  = pre ++ (scan_target <$> cols).
Proof.
  revert k pre suf.
  induction cols as [|col cols IH]; intros k pre suf Hpre Hsuf.
  - destruct suf; [done|discriminate].
  - destruct suf as [|x suf]; [discriminate|].
    simpl. rewrite Nat.add_0_r.
    replace (<[k:=boxed_Value (reflect_Zero (ScanType col))]> (pre ++ x :: suf))
      with ((pre ++ [scan_target col]) ++ suf).
    2:{ rewrite <- Hpre, insert_app_r_alt, Nat.sub_diag by lia.
        by rewrite <- app_assoc. }
    rewrite (imap_ext _ (λ i c, (S k + i, c))).
    2:{ intros i c _. simpl. f_equal. lia. }
    rewrite (IH (S k)).
    + by rewrite <- app_assoc.
    + rewrite length_app. simpl. lia.
    + simpl in Hsuf. lia.
Qed.

(** [makeRs] allocates, column by column, [reflect.Zero] of the scan type. *)
Lemma makeRs_eq cols : makeRs cols = scan_target <$> cols.
Proof.
  unfold makeRs.
  apply (makeRs_fold cols 0 [] (replicate (length cols) nil_any)); [done|].
  apply length_replicate.
Qed.

Lemma makeRs_length cols : length (makeRs cols) = length cols.
Proof. by rewrite makeRs_eq, length_fmap. Qed.

Lemma makeAny_fold (cols : list ColumnType) (values : list any) k (m : Any) :
  k + length cols ≤ length values →
  ∃ r, foldl (λ acc pc,
                res ← acc; v ← values !! pc.1; Some (<[Name pc.2 := v]> res))
             (Some m) (imap (λ i c, (k + i, c)) cols) = Some r
       ∧ dom r = dom m ∪ list_to_set (Name <$> cols).
Proof.
  revert k m. induction cols as [|col cols IH]; intros k m Hlen.
  - exists m. split; [done|]. set_solver.
  - simpl in *. rewrite Nat.add_0_r.
    destruct (lookup_lt_is_Some_2 values k) as [v Hv]; [lia|].
    rewrite Hv. simpl.
    rewrite (imap_ext _ (λ i c, (S k + i, c))).
    2:{ intros i c _. simpl. f_equal. lia. }
    destruct (IH (S k) (<[Name col := v]> m)) as (r & Hr & Hdom); [lia|].
    exists r. split; [done|]. rewrite Hdom, dom_insert_L. set_solver.
Qed.

(** With one value per column, [makeAny] does not panic, and the keys of
    its record are the column names. *)
Lemma makeAny_dom cols values :
  length cols ≤ length values →
  ∃ r, makeAny cols values = Some r ∧ dom r = list_to_set (Name <$> cols).
Proof.
  intros Hlen. destruct (makeAny_fold cols values 0 ∅) as (r & Hr & Hdom); [done|].
  exists r. split; [done|]. rewrite Hdom. set_solver.
Qed.

Lemma makeAny_makeRs cols :
  ∃ r, makeAny cols (makeRs cols) = Some r
       ∧ dom r = list_to_set (Name <$> cols).
Proof. apply makeAny_dom. by rewrite makeRs_length. Qed.

(** ** The methods of the cursor *)

Lemma count_if_app p l1 l2 :
  count_if p (l1 ++ l2) = count_if p l1 + count_if p l2.
Proof. induction l1 as [|c l1 IH]; simpl; [done|]. rewrite IH. lia. Qed.

Lemma new_Rows_released ri : released_iff_closed (new_Rows ri).
Proof. done. Qed.

Lemma Rows_close_spec err rs cerr rs1 :
  Rows_close err rs = (cerr, rs1) →
  rowsi rs1 = rowsi rs ∧ pending rs1 = pending rs ∧ closed rs1 = true ∧
  calls rs1 = calls rs ++ (if closed rs then [] else [call_release cerr]) ∧
  (closed rs = true → cerr = None) ∧
  (released_iff_closed rs → released_iff_closed rs1).
Proof.
  unfold Rows_close, released_iff_closed.
  destruct (closed rs) eqn:Hc; intros [= <- <-]; simpl.
  - by rewrite app_nil_r, Hc.
  - repeat split; try done. intros H. rewrite count_if_app, H. done.
Qed.

Lemma Rows_Close_spec rs err rs1 :
  Rows_Close rs = (err, rs1) →
  rowsi rs1 = rowsi rs ∧ pending rs1 = pending rs ∧ closed rs1 = true ∧
  calls rs1 = calls rs ++ (if closed rs then [] else [call_release err])
                       ++ [call_Close err] ∧
  (closed rs = true → err = None) ∧
  (released_iff_closed rs → released_iff_closed rs1).
Proof.
  unfold Rows_Close. destruct (Rows_close None rs) as [cerr rs'] eqn:Hclose.
  intros [= <- <-].
  destruct (Rows_close_spec _ _ _ _ Hclose) as (Hri & Hp & Hc & Hl & Hn & Hinv).
  unfold released_iff_closed in *. simpl.
  rewrite Hl, Hc in *. repeat split; try done.
  - by rewrite <- app_assoc.
  - intros H. rewrite count_if_app. simpl. rewrite Hinv by done. done.
Qed.

Lemma Rows_Err_spec rs err rs1 :
  Rows_Err rs = (err, rs1) →
  rowsi rs1 = rowsi rs ∧ closed rs1 = closed rs ∧
  calls rs1 = calls rs ++ [call_Err err].
Proof. unfold Rows_Err. by intros [= <- <-]. Qed.

Lemma Rows_ColumnTypes_spec rs cols err rs1 :
  Rows_ColumnTypes rs = ((cols, err), rs1) →
  rowsi rs1 = rowsi rs ∧ pending rs1 = pending rs ∧ closed rs1 = closed rs ∧
  lastcols rs1 = lastcols rs ∧ lasterr rs1 = lasterr rs ∧
  calls rs1 = calls rs ++ [call_ColumnTypes err] ∧
  (err = None → cols = Columns (rowsi rs) ∧ closed rs = false).
Proof.
  unfold Rows_ColumnTypes. destruct (closed rs) eqn:Hc; simpl.
  - intros [= <- <- <-]. simpl. repeat split; try done.
    all: exfalso; unfold lasterrOrErr in *; by repeat case_match.
  - by intros [= <- <- <-].
Qed.

Lemma Rows_Scan_spec dest rs err rs1 :
  Rows_Scan dest rs = (err, rs1) →
  rowsi rs1 = rowsi rs ∧ pending rs1 = pending rs ∧ closed rs1 = closed rs ∧
  calls rs1 = calls rs ++ [call_Scan dest err].
Proof. unfold Rows_Scan. by intros [= <- <-]. Qed.

Lemma Rows_Next_spec rs ok rs1 :
  Rows_Next rs = (ok, rs1) →
  rowsi rs1 = rowsi rs ∧
  (∃ rel, calls rs1 = calls rs ++ rel ++ [call_Next ok] ∧
          (rel = [] ∨ ∃ cerr, rel = [call_release cerr] ∧ ok = false)) ∧
  (ok = true → closed rs1 = false) ∧
  (released_iff_closed rs → released_iff_closed rs1).
Proof.
  unfold Rows_Next, released_iff_closed.
  destruct (closed rs) eqn:Hc.
  { intros [= <- <-]. simpl. rewrite Hc. repeat split; try done.
    - exists []. eauto.
    - intros H. rewrite count_if_app, H. done. }
  destruct (pending rs) as [|row rest].
  2:{ intros [= <- <-]. simpl. repeat split; try done.
      - exists []. eauto.
      - intros H. rewrite count_if_app, H. done. }
  intros [= <- <-].
  set (doClose := match stream_fault (rowsi rs) with
                  | Some _ => true
                  | None => negb (HasNextResultSet (rowsi rs))
                  end).
  destruct doClose; simpl.
  - repeat split; try done.
    + exists [call_release (driver_Close (rowsi rs))]. split.
      * by rewrite <- app_assoc.
      * right. eauto.
    + intros H. rewrite !count_if_app, H. done.
  - repeat split; try done.
    + exists []. eauto.
    + intros H. rewrite count_if_app, H. done.
Qed.

(** ** The scan loop *)

(** Case analysis and induction along the iterations of the loop. The
    record of a row is always built: [makeAny] gets one value per column. *)
Section scanLoop_cases.
Variables (cols : list ColumnType) (single : bool).
Variable P : list Any → Rows → loop_exit * Rows → Prop.

Hypothesis Hend : ∀ res rows rows1,
  Rows_Next rows = (false, rows1) →
  P res rows (loop_done res, rows1).
Hypothesis Hfail : ∀ res rows rows1 err rows2,
  Rows_Next rows = (true, rows1) →
  Rows_Scan (makeRs cols) rows1 = (Some err, rows2) →
  P res rows (loop_return ([], Some (fmt_Errorf_w "rows scanning" err)), rows2).
Hypothesis Hbreak : ∀ res rows rows1 rows2 rec,
  Rows_Next rows = (true, rows1) →
  Rows_Scan (makeRs cols) rows1 = (None, rows2) →
  makeAny cols (makeRs cols) = Some rec →
  single = true →
  P res rows (loop_done (res ++ [rec]), rows2).
Hypothesis Hiter : ∀ res rows rows1 rows2 rec,
  Rows_Next rows = (true, rows1) →
  Rows_Scan (makeRs cols) rows1 = (None, rows2) →
  makeAny cols (makeRs cols) = Some rec →
  single = false →
  P (res ++ [rec]) rows2 (scanLoop cols single (res ++ [rec]) rows2) →
  P res rows (scanLoop cols single (res ++ [rec]) rows2).

Lemma scanLoop_cases res rows : P res rows (scanLoop cols single res rows).
Proof using Hend Hfail Hbreak Hiter.
  remember (S (length (pending rows))) as n eqn:Hn.
  assert (length (pending rows) < n) as Hlt by lia. clear Hn.
  revert res rows Hlt.
  induction n as [|n IH]; intros res rows Hlt; [lia|].
  rewrite scanLoop_step.
  destruct (Rows_Next rows) as [[] rows1] eqn:Hnext; [|by apply Hend].
  destruct (Rows_Scan (makeRs cols) rows1) as [[err|] rows2] eqn:Hscan;
    [by eapply Hfail|].
  destruct (makeAny_makeRs cols) as (rec & Hrec & _). rewrite Hrec.
  destruct single eqn:Hsingle.
  - by eapply Hbreak.
  - eapply Hiter; try done. apply IH.
    apply Rows_Next_pending in Hnext.
    apply Rows_Scan_pending in Hscan. rewrite Hscan. lia.
Qed.
End scanLoop_cases.

Lemma Rows_Next_true_calls rs rs1 :
  Rows_Next rs = (true, rs1) → calls rs1 = calls rs ++ [call_Next true].
Proof.
  intros H. destruct (Rows_Next_spec _ _ _ H) as (_ & (rel & Hl & Hrel) & _).
  destruct Hrel as [->|(cerr & _ & [=])]. done.
Qed.

Lemma scanLoop_post cols single res rows :
  loop_post cols single res rows (scanLoop cols single res rows).
Proof.
  apply scanLoop_cases; clear res rows.
  - intros res rows rows1 Hnext.
    destruct (Rows_Next_spec _ _ _ Hnext) as (Hri & (rel & Hl & Hrel) & _ & Hinv).
    split; [done|]. split; [done|].
    exists (rel ++ [call_Next false]). simpl.
    destruct Hrel as [->|(cerr & -> & _)]; simpl.
    all: repeat split; try done; try lia.
    all: try (repeat constructor; done).
    all: exists []; by rewrite app_nil_r.
  - intros res rows rows1 err rows2 Hnext Hscan.
    pose proof (Rows_Next_true_calls _ _ Hnext) as Hl1.
    destruct (Rows_Next_spec _ _ _ Hnext) as (Hri1 & _ & _ & Hinv1).
    destruct (Rows_Scan_spec _ _ _ _ Hscan) as (Hri2 & _ & Hc2 & Hl2).
    split; [simpl; congruence|]. split.
    { intros H. specialize (Hinv1 H). unfold released_iff_closed in *.
      simpl. rewrite Hl2, Hc2, count_if_app, Hinv1. simpl. lia. }
    exists [call_Next true; call_Scan (makeRs cols) (Some err)]. simpl.
    rewrite Hl2, Hl1, <- app_assoc. repeat split; try done; try lia.
    { by repeat constructor. }
    exists [call_Next true], err. repeat split; try done.
    by repeat constructor.
  - intros res rows rows1 rows2 rec Hnext Hscan Hrec _.
    pose proof (Rows_Next_true_calls _ _ Hnext) as Hl1.
    destruct (Rows_Next_spec _ _ _ Hnext) as (Hri1 & _ & _ & Hinv1).
    destruct (Rows_Scan_spec _ _ _ _ Hscan) as (Hri2 & _ & Hc2 & Hl2).
    split; [simpl; congruence|]. split.
    { intros H. specialize (Hinv1 H). unfold released_iff_closed in *.
      simpl. rewrite Hl2, Hc2, count_if_app, Hinv1. simpl. lia. }
    exists [call_Next true; call_Scan (makeRs cols) None]. simpl.
    rewrite Hl2, Hl1, <- app_assoc. repeat split; try done; try lia.
    1,2: by repeat constructor.
    exists [rec]. repeat split; try done. by repeat constructor.
  - intros res rows rows1 rows2 rec Hnext Hscan Hrec Hsingle IH.
    pose proof (Rows_Next_true_calls _ _ Hnext) as Hl1.
    destruct (Rows_Next_spec _ _ _ Hnext) as (Hri1 & _ & _ & Hinv1).
    destruct (Rows_Scan_spec _ _ _ _ Hscan) as (Hri2 & _ & Hc2 & Hl2).
    destruct IH as (Hri & Hinv & new & Hl & Hcalls & _ & Hexit).
    split; [congruence|]. split.
    { intros H. apply Hinv. specialize (Hinv1 H).
      unfold released_iff_closed in *.
      rewrite Hl2, Hc2, count_if_app, Hinv1. simpl. lia. }
    exists ([call_Next true; call_Scan (makeRs cols) None] ++ new).
    rewrite Hl, Hl2, Hl1, <- !app_assoc. split; [done|].
    split; [by repeat constructor|]. split; [congruence|].
    destruct (scanLoop cols single (res ++ [rec]) rows2).1 as [res'|ret|r].
    + destruct Hexit as (Hnf & recs & -> & Hrecs & Hlen).
      split; [by repeat constructor|].
      exists (rec :: recs). rewrite <- app_assoc.
      repeat split; try done; [by constructor|]. simpl. by rewrite Hlen.
    + destruct Hexit as (new' & e & -> & Hnf & ->).
      exists ([call_Next true; call_Scan (makeRs cols) None] ++ new'), e.
      rewrite <- app_assoc. repeat split; try done. by repeat constructor.
    + done.
Qed.

(** ** The paths through [queryAnyRows] *)

Lemma queryAnyRows_body_path single rows out rows' :
  released_iff_closed rows →
  queryAnyRows_body single rows = (out, rows') →
  rowsi rows' = rowsi rows ∧ released_iff_closed rows' ∧
  ∃ new, calls rows' = calls rows ++ new ∧
         body_path (Columns (rowsi rows)) (calls rows) out new ∧
         (single = true → count_if is_Next new ≤ 1 ∧ count_if is_Scan new ≤ 1).
Proof.
  intros Hinv. unfold queryAnyRows_body.
  destruct (Rows_ColumnTypes rows) as [[cols err] rows1] eqn:Hct.
  destruct (Rows_ColumnTypes_spec _ _ _ _ Hct)
    as (Hri1 & _ & Hc1 & _ & _ & Hl1 & Hcols).
  assert (released_iff_closed rows1) as Hinv1.
  { unfold released_iff_closed in *.
    rewrite Hl1, Hc1, count_if_app, Hinv. simpl. lia. }
  destruct err as [e|].
  { intros [= <- <-]. repeat split; try done.
    exists [call_ColumnTypes (Some e)]. repeat split; try done.
    - by constructor.
    - simpl. lia.
    - simpl. lia. }
  destruct Hcols as [-> _]; [done|].
  pose proof (scanLoop_post (Columns (rowsi rows)) single [] rows1) as Hpost.
  destruct (scanLoop (Columns (rowsi rows)) single [] rows1) as [ex rows2].
  destruct Hpost as (Hri2 & Hinv2 & lnew & Hl2 & Hcalls & Hcount & Hexit).
  simpl in Hri2, Hinv2, Hl2, Hexit. specialize (Hinv2 Hinv1).
  assert (single = true →
          ∀ tail, count_if is_Next tail = 0 → count_if is_Scan tail = 0 →
            count_if is_Next (call_ColumnTypes None :: lnew ++ tail) ≤ 1 ∧
            count_if is_Scan (call_ColumnTypes None :: lnew ++ tail) ≤ 1)
    as Hcount'.
  { intros Hs tail Ht1 Ht2. specialize (Hcount Hs). simpl.
    rewrite !count_if_app. lia. }
  destruct ex as [res|ret|r]; [| |done].
  2:{ destruct Hexit as (new' & e & -> & Hnf & ->).
      intros [= <- <-]. split; [congruence|]. split; [done|].
      exists (call_ColumnTypes None :: new' ++
                [call_Scan (makeRs (Columns (rowsi rows))) (Some e)]).
      split; [by rewrite Hl2, Hl1, <- app_assoc|]. split.
      - apply path_scan; try done.
        by apply Forall_app in Hcalls as [? _].
      - intros Hs. specialize (Hcount Hs). simpl. lia. }
  destruct Hexit as (Hnf & recs & -> & Hrecs & Hlen).
  destruct (Rows_Close rows2) as [cerr rows3] eqn:Hclose.
  destruct (Rows_Close_spec _ _ _ Hclose) as (Hri3 & _ & Hc3 & Hl3 & _ & Hinv3).
  specialize (Hinv3 Hinv2).
  set (rel := if closed rows2 then [] else [call_release cerr]) in *.
  assert (Forall released rel) as Hrel.
  { unfold rel. destruct (closed rows2); by repeat constructor. }
  assert (count_if is_Next rel = 0 ∧ count_if is_Scan rel = 0) as [Hr1 Hr2].
  { unfold rel. by destruct (closed rows2). }
  destruct cerr as [e|].
  { intros [= <- <-]. split; [congruence|]. split; [done|].
    exists (call_ColumnTypes None :: lnew ++ rel ++ [call_Close (Some e)]).
    split; [by rewrite Hl3, Hl2, Hl1, <- !app_assoc|]. split.
    - by apply path_close.
    - intros Hs. apply Hcount'; [done| |]; rewrite count_if_app; simpl; lia. }
  destruct (Rows_Err rows3) as [e rows4] eqn:Herr.
  destruct (Rows_Err_spec _ _ _ Herr) as (Hri4 & Hc4 & Hl4).
  assert (released_iff_closed rows4) as Hinv4.
  { unfold released_iff_closed in *.
    rewrite Hl4, Hc4, count_if_app, Hinv3. simpl. lia. }
  assert (body_path (Columns (rowsi rows)) (calls rows)
            match e with
            | Some err => Return ([], Some (fmt_Errorf_w "rows iterating" err))
            | None => Return (recs, None)
            end
            (call_ColumnTypes None :: lnew ++ rel ++
               [call_Close None; call_Err e])) as Hpath.
  { apply path_check with (res := recs); try done.
    unfold released_iff_closed in Hinv3. rewrite Hc3 in Hinv3.
    rewrite <- Hinv3, Hl3, Hl2, Hl1. by rewrite <- !app_assoc. }
  assert (calls rows4 = calls rows ++ call_ColumnTypes None :: lnew ++ rel ++
                          [call_Close None; call_Err e]) as Hl.
  { rewrite Hl4, Hl3, Hl2, Hl1. by rewrite <- !app_assoc. }
  assert (rowsi rows4 = rowsi rows) as Hri by congruence.
  destruct e as [err|]; intros [= <- <-].
  all: split; [done|]; split; [done|].
  all: eexists; split; [exact Hl|]; split; [exact Hpath|].
  all: intros Hs; apply Hcount'; [done| |]; rewrite count_if_app; simpl; lia.
Qed.

Lemma queryAnyRows_body_closed single rows out rows' res :
  queryAnyRows_body single rows = (out, rows') →
  out = Return (res, None) → closed rows' = true.
Proof.
  unfold queryAnyRows_body.
  destruct (Rows_ColumnTypes rows) as [[cols [e|]] rows1]; [by intros [= <- _]|].
  pose proof (scanLoop_post cols single [] rows1) as Hpost.
  destruct (scanLoop cols single [] rows1) as [[res'|ret|r] rows2];
    [| |by intros [= <- _]].
  2:{ destruct Hpost as (_ & _ & new & _ & _ & _ & new' & e & _ & _ & ->).
      by intros [= <- _]. }
  destruct (Rows_Close rows2) as [[e|] rows3] eqn:Hclose; [by intros [= <- _]|].
  destruct (Rows_Close_spec _ _ _ Hclose) as (_ & _ & Hc3 & _).
  destruct (Rows_Err rows3) as [[e|] rows4] eqn:Herr; [by intros [= <- _]|].
  destruct (Rows_Err_spec _ _ _ Herr) as (_ & Hc4 & _).
  intros [= _ <-] _. congruence.
Qed.



Lemma released_no_failure c : released c → no_failure c.
Proof. by destruct c. Qed.

Lemma no_failure_surfaced out c : no_failure c → surfaced out c.
Proof. unfold no_failure, surfaced. intros H ?? H'. congruence. Qed.

Lemma body_path_surfaced cols l0 out new :
  body_path cols l0 out new → Forall (surfaced out) new.
Proof.
  destruct 1 as [e ->|lnew e Hc Hnf ->|lnew rel e Hc Hnf Hrel ->
                |lnew rel e res Hc Hnf Hrel _ _ _ ->].
  - constructor; [|done]. by intros ?? [= <- <-].
  - constructor; [done|]. apply Forall_app. split.
    + eapply Forall_impl; [done|]. apply no_failure_surfaced.
    + constructor; [|done]. by intros ?? [= <- <-].
  - constructor; [done|]. rewrite !Forall_app. repeat split.
    + eapply Forall_impl; [done|]. apply no_failure_surfaced.
    + eapply Forall_impl; [done|]. intros c Hr.
      by apply no_failure_surfaced, released_no_failure.
    + constructor; [|done]. by intros ?? [= <- <-].
  - constructor; [done|]. rewrite !Forall_app. repeat split.
    + eapply Forall_impl; [done|]. apply no_failure_surfaced.
    + eapply Forall_impl; [done|]. intros c Hr.
      by apply no_failure_surfaced, released_no_failure.
    + constructor; [done|]. constructor; [|done].
      destruct e; [|done]. by intros ?? [= <- <-].
Qed.

Lemma body_path_scan_targets cols l0 out new dest err :
  body_path cols l0 out new → call_Scan dest err ∈ new → dest = makeRs cols.
Proof.
  assert (∀ l, Forall (loop_call cols) l → call_Scan dest err ∈ l →
               dest = makeRs cols) as Hloop.
  { intros l Hl Hin. rewrite Forall_forall in Hl. by apply Hl in Hin. }
  assert (∀ l, Forall released l → call_Scan dest err ∉ l) as Hrel.
  { intros l Hl Hin. rewrite Forall_forall in Hl. by apply Hl in Hin. }
  destruct 1 as [e ->|lnew e Hc Hnf ->|lnew rel e Hc Hnf Hr ->
                |lnew rel e res Hc Hnf Hr _ _ _ ->].
  all: rewrite ?elem_of_cons, ?elem_of_app, ?elem_of_cons, ?elem_of_nil.
  all: naive_solver.
Qed.

Lemma body_path_success cols l0 out new res :
  body_path cols l0 out new → out = Return (res, None) →
  (∃ pre, new = pre ++ [call_Err None]) ∧
  Forall (λ rec, makeAny cols (makeRs cols) = Some rec) res ∧
  length res ≤ count_if is_Scan new.
Proof.
  destruct 1 as [e ->|lnew e Hc Hnf ->|lnew rel e Hc Hnf Hr ->
                |lnew rel e res' Hc Hnf Hr _ Hrecs Hlen ->]; try done.
  destruct e; [done|]. intros [= ->]. repeat split; try done.
  - exists (call_ColumnTypes None :: lnew ++ rel ++ [call_Close None]).
    simpl. by rewrite <- !app_assoc.
  - simpl. rewrite Hlen, !count_if_app. lia.
Qed.




(** ** [queryAnyRows] as a whole *)

Lemma Tx_QueryContext_spec conn ctx query args ri :
  Tx_query conn ctx query args = inl ri →
  ∃ rows, Tx_QueryContext conn ctx query args = inl rows ∧
          rowsi rows = ri ∧ pending rows = data ri ∧
          released_iff_closed rows ∧ Forall released (calls rows) ∧
          (ctx_Err ctx = None → rows = new_Rows ri).
Proof.
  intros Hq. unfold Tx_QueryContext. rewrite Hq.
  destruct (ctx_Err ctx) as [e|]; eexists; (split; [done|]).
  - unfold released_iff_closed. simpl. repeat split; try done.
    by apply Forall_singleton.
  - unfold released_iff_closed. simpl. repeat split; try done.
Qed.

Lemma queryAnyRows_query_failed ctx conn query single args e :
  Tx_query conn ctx query args = inr e →
  queryAnyRows ctx conn query single args
  = (Return ([], Some (fmt_Errorf_w "query executing" e)), None).
Proof. intros Hq. unfold queryAnyRows, Tx_QueryContext. by rewrite Hq. Qed.

(** A query that answered a cursor: the call returns (it does not panic),
    the cursor is closed and its driver cursor was given back once; the log
    is what was there before, the calls up to the [return], and the deferred
    [Close]. *)
Lemma queryAnyRows_path ctx conn query single args ri :
  Tx_query conn ctx query args = inl ri →
  ∃ out rows l0 new rel derr,
    queryAnyRows ctx conn query single args = (out, Some rows) ∧
    rowsi rows = ri ∧ closed rows = true ∧
    count_if is_release (calls rows) = 1 ∧
    calls rows = l0 ++ new ++ rel ++ [call_Close derr] ∧
    Forall released l0 ∧ Forall released rel ∧
    body_path (Columns ri) l0 out new ∧
    (∀ res, out = Return (res, None) → derr = None) ∧
    (single = true → count_if is_Next new ≤ 1 ∧ count_if is_Scan new ≤ 1).
Proof.
  intros Hq.
  destruct (Tx_QueryContext_spec _ _ _ _ _ Hq)
    as (rows0 & Hqc & Hri0 & _ & Hinv0 & Hl0 & _).
  unfold queryAnyRows. rewrite Hqc.
  destruct (queryAnyRows_body single rows0) as [out rows1] eqn:Hbody.
  destruct (queryAnyRows_body_path _ _ _ _ Hinv0 Hbody)
    as (Hri1 & Hinv1 & new & Hl1 & Hpath & Hcount).
  destruct (Rows_Close rows1) as [derr rows2] eqn:Hclose.
  destruct (Rows_Close_spec _ _ _ Hclose)
    as (Hri2 & _ & Hc2 & Hl2 & Hnil & Hinv2).
  specialize (Hinv2 Hinv1).
  exists out, rows2, (calls rows0), new,
    (if closed rows1 then [] else [call_release derr]), derr.
  repeat split; try done.
  - congruence.
  - unfold released_iff_closed in Hinv2. by rewrite Hc2 in Hinv2.
  - by rewrite Hl2, Hl1, <- !app_assoc.
  - destruct (closed rows1); by repeat constructor.
  - by rewrite <- Hri0.
  - intros res Hout. apply Hnil. by eapply queryAnyRows_body_closed.
  - by apply Hcount.
  - by apply Hcount.
Qed.

(** [QueryAny] is [queryAnyRows] in single mode: same cursor, same error
    when there is one, and otherwise the first record or [sql.ErrNoRows]. *)
Lemma QueryAny_queryAnyRows ctx conn query args out rows :
  queryAnyRows ctx conn query true args = (out, rows) →
  ∃ out1, QueryAny ctx conn query args = (out1, rows) ∧
    match out with
    | Panic r => out1 = Panic r
    | Return (_, Some err) => out1 = Return (None, Some err)
    | Return ([], None) => out1 = Return (None, Some sql_ErrNoRows)
    | Return (rec :: _, None) => out1 = Return (Some rec, None)
    end.
Proof.
  intros H. unfold QueryAny. rewrite H.
  destruct out as [[[|rec res] [err|]]|r]; eexists; (split; [reflexivity|done]).
Qed.

(** ** The transaction runner *)

(** Unfolds [WithTx] up to its call of [BeginTx]. *)
Ltac run_WithTx := unfold WithTx; fold serializable.

Lemma errors_Is_join_head e rest : errors_Is (joinError (e :: rest)) e = true.
Proof.
  cbn [errors_Is]. rewrite errors_Is_refl. simpl. apply orb_true_r.
Qed.

Lemma errors_Is_join_second e e2 : errors_Is (joinError [e; e2]) e2 = true.
Proof.
  cbn [errors_Is]. rewrite (errors_Is_refl e2). simpl.
  by rewrite !orb_true_r.
Qed.

(** C2, as the code has it. When the transaction began and the unit of work
    returns a non-nil error without panicking, [WithTx] makes one call that
    ends the transaction, a rollback, and no commit; it returns
    [errors.Join] of the original error and of what the rollback answered.
    That error contains the original error and, when the rollback failed,
    the rollback's error too. When the rollback succeeded it is a join with
    the original error as its one member: it prints as the original error
    does, and is not the original error value. *)
Theorem WithTx_error_rolls_back ctx db f tx e tx1 :
  db_BeginTx db ctx serializable = inl tx →
  f tx = (Return (Some e), tx1) →
  ∃ rb tx2 err,
    Tx_Rollback tx1 = (rb, tx2) ∧
    WithTx ctx db f = (Return (Some err), Some tx2) ∧
    tx_calls tx2 = tx_calls tx1 ++ [call_Rollback rb] ∧
    err = joinError (e :: option_list rb) ∧
    errors_Is err e = true ∧
    (∀ e2, rb = Some e2 → errors_Is err e2 = true) ∧
    (rb = None → err = joinError [e] ∧ Error err = Error e).
Proof.
  intros Hbegin Hf. run_WithTx; rewrite Hbegin, Hf.
  destruct (Tx_Rollback tx1) as [rb tx2] eqn:Hrb.
  exists rb, tx2, (joinError (e :: option_list rb)).
  split; [done|]. split; [by rewrite errors_Join_first|].
  split; [unfold Tx_Rollback in Hrb; by injection Hrb as <- <-|].
  split; [done|]. split; [apply errors_Is_join_head|].
  split.
  - intros e2 ->. apply errors_Is_join_second.
  - by intros ->.
Qed.

Lemma WithTx_error_rolls_back_witness :
  ∃ rb tx2 err,
    Tx_Rollback (fresh_tx None (Some conn_lost)) = (rb, tx2) ∧
    WithTx background (pool_of (fresh_tx None (Some conn_lost)))
      (work_returns (Some boom)) = (Return (Some err), Some tx2) ∧
    tx_calls tx2 = [] ++ [call_Rollback rb] ∧
    err = joinError (boom :: option_list rb) ∧
    errors_Is err boom = true ∧
    (∀ e2, rb = Some e2 → errors_Is err e2 = true) ∧
    (rb = None → err = joinError [boom] ∧ Error err = Error boom).
Proof.
  exact (WithTx_error_rolls_back background
           (pool_of (fresh_tx None (Some conn_lost)))
           (work_returns (Some boom)) (fresh_tx None (Some conn_lost))
           boom (fresh_tx None (Some conn_lost)) eq_refl eq_refl).
Defined.

(** C2, as the claim states it, fails where the rollback succeeds: the
    caller does not get the original error back, but a join around it. *)
Lemma WithTx_error_not_original :
  db_BeginTx (pool_of (fresh_tx None None)) background serializable
  = inl (fresh_tx None None) ∧
  work_returns (Some boom) (fresh_tx None None)
  = (Return (Some boom), fresh_tx None None) ∧
  (Tx_Rollback (fresh_tx None None)).1 = None ∧
  (WithTx background (pool_of (fresh_tx None None))
     (work_returns (Some boom))).1 = Return (Some (joinError [boom])) ∧
  (WithTx background (pool_of (fresh_tx None None))
     (work_returns (Some boom))).1 ≠ Return (Some boom) ∧
  errors_Unwrap (joinError [boom]) = None.
Proof. repeat split; try reflexivity. discriminate. Qed.



(** C4. When the transaction began and the unit of work returns nil without
    panicking, [WithTx] makes one call that ends the transaction, a commit,
    and no rollback, and returns what the commit answered: its error when it
    failed, nil otherwise. *)
Theorem WithTx_success_commits ctx db f tx tx1 :
  db_BeginTx db ctx serializable = inl tx →
  f tx = (Return None, tx1) →
  ∃ cerr tx2,
    Tx_Commit tx1 = (cerr, tx2) ∧
    WithTx ctx db f = (Return cerr, Some tx2) ∧
    tx_calls tx2 = tx_calls tx1 ++ [call_Commit cerr].
Proof.
  intros Hbegin Hf. run_WithTx; rewrite Hbegin, Hf.
  destruct (Tx_Commit tx1) as [cerr tx2] eqn:Hc.
  exists cerr, tx2. repeat split.
  unfold Tx_Commit in Hc. by injection Hc as <- <-.
Qed.

Lemma WithTx_success_commits_witness :
  ∃ cerr tx2,
    Tx_Commit (fresh_tx (Some conn_lost) None) = (cerr, tx2) ∧
    WithTx background (pool_of (fresh_tx (Some conn_lost) None))
      (work_returns None) = (Return cerr, Some tx2) ∧
    tx_calls tx2 = [] ++ [call_Commit cerr].
Proof.
  exact (WithTx_success_commits background
           (pool_of (fresh_tx (Some conn_lost) None)) (work_returns None)
           (fresh_tx (Some conn_lost) None) (fresh_tx (Some conn_lost) None)
           eq_refl eq_refl).
Defined.

(** ** Release of the cursor *)




(** ** Records and scan targets *)


Lemma Forall_released_count p l :
  (∀ c, released c → p c = false) → Forall released l → count_if p l = 0.
Proof.
  intros Hp. induction 1 as [|c l Hc _ IH]; simpl; [done|].
  by rewrite (Hp c Hc), IH.
Qed.

Lemma queryAnyRows_records ctx conn query single args ri :
  Tx_query conn ctx query args = inl ri →
  ∃ out rows,
    queryAnyRows ctx conn query single args = (out, Some rows) ∧
    (∀ dest err, call_Scan dest err ∈ calls rows → dest = makeRs (Columns ri)) ∧
    (∀ res rec, out = Return (res, None) → rec ∈ res →
                dom rec = list_to_set (Name <$> Columns ri)) ∧
    (single = true →
     count_if is_Next (calls rows) ≤ 1 ∧ count_if is_Scan (calls rows) ≤ 1).
Proof.
  intros Hq.
  destruct (queryAnyRows_path ctx conn query single args ri Hq)
    as (out & rows & l0 & new & rel & derr & Hrun & _ & _ & _ & Hl &
        Hl0 & Hrel & Hpath & _ & Hcount).
  exists out, rows. split; [done|]. split; [|split].
  - intros dest err. rewrite Hl, !elem_of_app, list_elem_of_singleton.
    intros [Hin|[Hin|[Hin|[=]]]].
    + rewrite Forall_forall in Hl0. by apply Hl0 in Hin.
    + by eapply body_path_scan_targets.
    + rewrite Forall_forall in Hrel. by apply Hrel in Hin.
  - intros res rec -> Hin.
    destruct (body_path_success _ _ _ _ _ Hpath eq_refl) as (_ & Hrecs & _).
    rewrite Forall_forall in Hrecs. specialize (Hrecs rec Hin).
    destruct (makeAny_makeRs (Columns ri)) as (rec' & Hrec' & Hdom).
    congruence.
  - intros Hs. specialize (Hcount Hs). rewrite Hl, !count_if_app.
    rewrite !(Forall_released_count _ l0), !(Forall_released_count _ rel);
      try done; try by intros [].
    simpl. lia.
Qed.



(** The run of that witness does return records: one per row, each with
    the empty key set of a result set without columns. *)
Example QueryAnyRows_no_columns_records :
  (QueryAnyRows background (conn_of no_columns) select_id_name []).1
  = Return ([∅; ∅], None).
Proof. vm_compute. reflexivity. Qed.

(** ** Result sets without rows *)

Lemma scanLoop_no_rows cols single res rows :
  closed rows = false → pending rows = [] →
  ∃ rows1, scanLoop cols single res rows = (loop_done res, rows1) ∧
           rows1 = (Rows_Next rows).2.
Proof.
  intros Hc Hp. rewrite scanLoop_step.
  unfold Rows_Next. rewrite Hc, Hp. by eexists.
Qed.

Lemma queryAnyRows_no_rows ctx conn query single args ri :
  Tx_query conn ctx query args = inl ri → data ri = [] →
  ∃ err, (queryAnyRows ctx conn query single args).1 = Return ([], err).
Proof.
  intros Hq Hdata.
  destruct (Tx_QueryContext_spec _ _ _ _ _ Hq)
    as (rows0 & Hqc & _ & Hp0 & _).
  unfold queryAnyRows. rewrite Hqc. unfold queryAnyRows_body.
  destruct (Rows_ColumnTypes rows0) as [[cols [e|]] rows1] eqn:Hct.
  { destruct (Rows_Close rows1). by eexists. }
  destruct (Rows_ColumnTypes_spec _ _ _ _ Hct)
    as (_ & Hp1 & Hc1 & _ & _ & _ & Hcols).
  destruct Hcols as [_ Hc0]; [done|].
  destruct (scanLoop_no_rows cols single [] rows1) as (rows2 & -> & _);
    [congruence|congruence|].
  destruct (Rows_Close rows2) as [[e|] rows3].
  { destruct (Rows_Close rows3). by eexists. }
  destruct (Rows_Err rows3) as [[e|] rows4].
  all: destruct (Rows_Close rows4); by eexists.
Qed.

Lemma queryAnyRows_no_rows_clean ctx conn query single args ri :
  Tx_query conn ctx query args = inl ri → data ri = [] →
  ctx_Err ctx = None → stream_fault ri = None → driver_Close ri = None →
  (queryAnyRows ctx conn query single args).1 = Return ([], None).
Proof.
  intros Hq Hdata Hctx Hfault Hclose.
  unfold queryAnyRows, Tx_QueryContext. rewrite Hq, Hctx.
  unfold queryAnyRows_body, Rows_ColumnTypes. simpl.
  rewrite scanLoop_step. unfold Rows_Next. simpl. rewrite Hdata, Hfault.
  destruct (HasNextResultSet ri); simpl.
  all: unfold Rows_Close, Rows_close, Rows_Err, lasterrOrErr; simpl.
  all: rewrite ?Hclose; simpl; reflexivity.
Qed.

(** ** Stages that all succeed *)

Lemma body_path_no_failure cols l0 out new :
  body_path cols l0 out new → Forall no_failure new →
  ∃ res, out = Return (res, None).
Proof.
  destruct 1 as [e ->|lnew e Hc Hnf ->|lnew rel e Hc Hnf Hrel ->
                |lnew rel e res Hc Hnf Hrel _ _ _ ->].
  all: rewrite ?Forall_cons, ?Forall_app, ?Forall_cons; unfold no_failure.
  1-3: simpl; naive_solver.
  destruct e as [err|]; [simpl; naive_solver|]. by eexists.
Qed.

Lemma surfaced_success res c : surfaced (Return (res, None)) c → no_failure c.
Proof.
  unfold surfaced, no_failure. intros H.
  destruct (stage_failure c) as [[stage e]|]; [|done].
  by specialize (H stage e eq_refl).
Qed.

(** A call returns without an error exactly when no call on its cursor
    failed, the deferred release included. *)
Lemma queryAnyRows_stages ctx conn query single args ri :
  Tx_query conn ctx query args = inl ri →
  ∃ out rows,
    queryAnyRows ctx conn query single args = (out, Some rows) ∧
    (Forall no_failure (calls rows) ↔ ∃ res, out = Return (res, None)).
Proof.
  intros Hq.
  destruct (queryAnyRows_path ctx conn query single args ri Hq)
    as (out & rows & l0 & new & rel & derr & Hrun & _ & _ & _ & Hl &
        Hl0 & Hrel & Hpath & Hderr & _).
  exists out, rows. split; [done|]. rewrite Hl. split.
  - rewrite !Forall_app. intros (_ & Hnew & _).
    by eapply body_path_no_failure.
  - intros [res ->]. rewrite (Hderr res eq_refl), !Forall_app.
    repeat split.
    + eapply Forall_impl; [exact Hl0|apply released_no_failure].
    + eapply Forall_impl; [by eapply body_path_surfaced|].
      apply surfaced_success.
    + eapply Forall_impl; [exact Hrel|apply released_no_failure].
    + by repeat constructor.
Qed.

Lemma fst_eq {A B} (p : A * B) a b : p = (a, b) → p.1 = a.
Proof. by intros ->. Qed.

(** C10. For a query that answers a cursor over zero rows, [QueryAnyRows]
    returns the nil slice and a nil error whenever no stage fails, that is,
    whenever every call it made on the cursor (column description, release,
    end-of-iteration check) answered nil. That is the case when the context
    is not done, the driver meets no fault while streaming and its cursor is
    given back without error. Zero rows is not an error here. *)
Theorem QueryAnyRows_no_rows_is_success ctx conn query args ri :
  Tx_query conn ctx query args = inl ri → data ri = [] →
  ∃ out rows,
    QueryAnyRows ctx conn query args = (out, Some rows) ∧
    (Forall no_failure (calls rows) → out = Return ([], None)) ∧
    (ctx_Err ctx = None → stream_fault ri = None → driver_Close ri = None →
     Forall no_failure (calls rows) ∧ out = Return ([], None)).
Proof.
  intros Hq Hdata.
  destruct (queryAnyRows_stages ctx conn query false args ri Hq)
    as (out & rows & Hrun & Hiff).
  destruct (queryAnyRows_no_rows ctx conn query false args ri Hq Hdata)
    as (err & Hnil).
  rewrite Hrun in Hnil. simpl in Hnil. subst out.
  exists (Return ([], err)), rows. split; [done|]. split.
  - intros Hnf. apply Hiff in Hnf as [res [= _ ->]]. done.
  - intros Hctx Hfault Hclose.
    pose proof (queryAnyRows_no_rows_clean ctx conn query false args ri
                  Hq Hdata Hctx Hfault Hclose) as Hclean.
    rewrite Hrun in Hclean. simpl in Hclean. injection Hclean as ->.
    split; [|done]. apply Hiff. by eexists.
Qed.

Lemma QueryAnyRows_no_rows_is_success_witness :
  (QueryAnyRows background (conn_of no_rows) select_id_name []).1
  = Return ([], None).
Proof.
  destruct (QueryAnyRows_no_rows_is_success background (conn_of no_rows)
              select_id_name [] no_rows eq_refl eq_refl)
    as (out & rows & Hrun & _ & Hclean).
  destruct (Hclean eq_refl eq_refl eq_refl) as [_ ->].
  exact (fst_eq _ _ _ Hrun).
Defined.




(** ** Rows that are scanned *)

Lemma fill_lastcols_length n row : length (fill_lastcols n row) = n.
Proof.
  unfold fill_lastcols. rewrite length_take, length_app, length_replicate. lia.
Qed.

(** [Scan] refuses the targets of [makeRs] as soon as there is a column:
    they are [reflect.Value]s, not pointers. *)
Lemma scan_columns_makeRs names col cols src :
  length src = length (col :: cols) →
  ∃ context, scan_columns 0 names (makeRs (col :: cols)) src
             = Some (wrapError context not_a_pointer).
Proof.
  intros Hlen. destruct src as [|sv src]; [done|].
  rewrite makeRs_eq. simpl. by eexists.
Qed.

Lemma queryAnyRows_row_not_scanned ctx conn query single args ri col cols
    row rest :
  Tx_query conn ctx query args = inl ri → ctx_Err ctx = None →
  Columns ri = col :: cols → data ri = row :: rest →
  ∃ context,
    (queryAnyRows ctx conn query single args).1
    = Return ([], Some (fmt_Errorf_w "rows scanning"
                          (wrapError context not_a_pointer))).
Proof.
  intros Hq Hctx Hcols Hdata.
  unfold queryAnyRows, Tx_QueryContext. rewrite Hq, Hctx.
  unfold queryAnyRows_body, Rows_ColumnTypes. simpl.
  rewrite scanLoop_step. unfold Rows_Next. simpl. rewrite Hdata.
  unfold Rows_Scan, lasterrOrErr. simpl.
  rewrite decide_True by (by rewrite makeRs_length, fill_lastcols_length).
  rewrite Hcols.
  destruct (scan_columns_makeRs (Name <$> col :: cols) col cols
              (fill_lastcols (length (col :: cols)) row)) as (context & ->);
    [apply fill_lastcols_length|].
  exists context. by destruct (Rows_Close _).
Qed.

(** C1: the scenario, run. [QueryAnyRows] over the rows (1,"a") and (2,"b")
    with the columns id and name returns no record: the scan of the first
    row fails, since its targets are the [reflect.Value]s of [makeRs] and
    [Scan] takes pointers only. *)
Theorem QueryAnyRows_two_rows_returns_scan_error :
  (QueryAnyRows background (conn_of two_rows) select_id_name []).1
  = Return ([], Some (fmt_Errorf_w "rows scanning"
                        (wrapError
                           ("sql: Scan error on column index 0, name " +:+
                            dquote +:+ "id" +:+ dquote)
                           not_a_pointer))).
Proof. vm_compute. reflexivity. Qed.

(** In single mode the loop is left after its first row: [Next] and [Scan]
    are called once at most, so no row after the first is fetched or
    scanned. *)
Lemma QueryAny_scans_one_row_at_most ctx conn query args ri :
  Tx_query conn ctx query args = inl ri →
  ∃ out rows,
    QueryAny ctx conn query args = (out, Some rows) ∧
    count_if is_Next (calls rows) ≤ 1 ∧ count_if is_Scan (calls rows) ≤ 1.
Proof.
  intros Hq.
  destruct (queryAnyRows_records ctx conn query true args ri Hq)
    as (out & rows & Hrun & _ & _ & Hcount).
  destruct (QueryAny_queryAnyRows _ _ _ _ _ _ Hrun) as (out1 & Hrun1 & _).
  exists out1, rows. split; [done|]. by apply Hcount.
Qed.

(** C9: a result set of two rows, run. [QueryAny] returns no data of the
    first row but the error of its scan, for the reason given at C1; the
    second row is not scanned. *)
Theorem QueryAny_two_rows_returns_scan_error :
  ∃ rows,
    QueryAny background (conn_of two_rows) select_id_name []
    = (Return (None,
               Some (fmt_Errorf_w "rows scanning"
                       (wrapError
                          ("sql: Scan error on column index 0, name " +:+
                           dquote +:+ "id" +:+ dquote)
                          not_a_pointer))),
       Some rows) ∧
    count_if is_Scan (calls rows) = 1 ∧
    pending rows = [[int64 2; string_v "b"]].
Proof. eexists. vm_compute. repeat split; reflexivity. Qed.

(** ** Errors of the stages *)

Lemma queryAnyRows_reported ctx conn query single args ri :
  Tx_query conn ctx query args = inl ri →
  ∃ out rows l derr,
    queryAnyRows ctx conn query single args = (out, Some rows) ∧
    calls rows = l ++ [call_Close derr] ∧
    Forall (surfaced out) l.
Proof.
  intros Hq.
  destruct (queryAnyRows_path ctx conn query single args ri Hq)
    as (out & rows & l0 & new & rel & derr & Hrun & _ & _ & _ & Hl &
        Hl0 & Hrel & Hpath & _ & _).
  exists out, rows, (l0 ++ new ++ rel), derr.
  split; [done|]. split; [by rewrite Hl, <- !app_assoc|].
  rewrite !Forall_app. repeat split.
  - eapply Forall_impl; [exact Hl0|]. intros c Hc.
    by apply no_failure_surfaced, released_no_failure.
  - by eapply body_path_surfaced.
  - eapply Forall_impl; [exact Hrel|]. intros c Hc.
    by apply no_failure_surfaced, released_no_failure.
Qed.

(** C6, as the code has it. The stages of the row scanner and of the pool
    opener wrap their cause under the stage's context, and the wrapped
    error keeps the cause reachable: a failed query ("query executing"), and
    every failed call on the cursor made before the [return]: column
    description ("columns describing"), scan ("rows scanning"), release
    ("rows closing"), end-of-iteration check ("rows iterating"); a failed
    [sql.Open] ("opening database") and a failed ping ("pinging database").
    The transaction runner adds no context: a failed begin and a failed
    commit are returned as they are. What the deferred release of the
    cursor answers, the last call in the log, is not looked at. *)
Theorem stage_errors_wrapped_but_begin_and_commit :
  (∀ ctx db f e,
     db_BeginTx db ctx serializable = inr e →
     WithTx ctx db f = (Return (Some e), None)) ∧
  (∀ ctx db f tx tx1 tx2 e,
     db_BeginTx db ctx serializable = inl tx →
     f tx = (Return None, tx1) → Tx_Commit tx1 = (Some e, tx2) →
     WithTx ctx db f = (Return (Some e), Some tx2)) ∧
  (∀ ctx conn query args e,
     Tx_query conn ctx query args = inr e →
     QueryAnyRows ctx conn query args
     = (Return ([], Some (fmt_Errorf_w "query executing" e)), None) ∧
     QueryAny ctx conn query args
     = (Return (None, Some (fmt_Errorf_w "query executing" e)), None)) ∧
  (∀ ctx conn query args ri,
     Tx_query conn ctx query args = inl ri →
     (∃ out rows l derr,
        QueryAnyRows ctx conn query args = (out, Some rows) ∧
        calls rows = l ++ [call_Close derr] ∧
        Forall (reported (error_of out)) l) ∧
     (∃ out rows l derr,
        QueryAny ctx conn query args = (out, Some rows) ∧
        calls rows = l ++ [call_Close derr] ∧
        Forall (reported (error_of out)) l)) ∧
  (∀ env driverName dataSourceName maxConn maxLifetime pingTimeout e,
     env_Open env driverName dataSourceName = Some e →
     Open env driverName dataSourceName maxConn maxLifetime pingTimeout
     = (None, Some (fmt_Errorf_w "opening database" e))) ∧
  (∀ env driverName dataSourceName maxConn maxLifetime pingTimeout db e,
     sql_Open env driverName dataSourceName = inl db →
     env_Ping env (configured maxConn maxLifetime db) pingTimeout = Some e →
     Open env driverName dataSourceName maxConn maxLifetime pingTimeout
     = (None, Some (fmt_Errorf_w "pinging database" e))) ∧
  (∀ stage e,
     errors_Unwrap (fmt_Errorf_w stage e) = Some e ∧
     errors_Is (fmt_Errorf_w stage e) e = true).
Proof.
  repeat apply conj.
  - intros ctx db f e Hbegin. run_WithTx. by rewrite Hbegin.
  - intros ctx db f tx tx1 tx2 e Hbegin Hf Hcommit.
    run_WithTx. by rewrite Hbegin, Hf, Hcommit.
  - intros ctx conn query args e Hq.
    unfold QueryAny, QueryAnyRows.
    by rewrite !(queryAnyRows_query_failed _ _ _ _ _ e Hq).
  - intros ctx conn query args ri Hq. split.
    + destruct (queryAnyRows_reported ctx conn query false args ri Hq)
        as (out & rows & l & derr & Hrun & Hl & Hs).
      exists out, rows, l, derr. split; [done|]. split; [done|].
      eapply Forall_impl; [exact Hs|].
      intros c Hc stage e Hf. by rewrite (Hc stage e Hf).
    + destruct (queryAnyRows_reported ctx conn query true args ri Hq)
        as (out & rows & l & derr & Hrun & Hl & Hs).
      destruct (QueryAny_queryAnyRows _ _ _ _ _ _ Hrun)
        as (out1 & Hrun1 & Hout).
      exists out1, rows, l, derr. split; [done|]. split; [done|].
      eapply Forall_impl; [exact Hs|].
      intros c Hc stage e Hf. rewrite (Hc stage e Hf) in Hout. by subst out1.
  - intros env driverName dataSourceName maxConn maxLifetime pingTimeout e Ho.
    unfold Open, sql_Open. by rewrite Ho.
  - intros env driverName dataSourceName maxConn maxLifetime pingTimeout db e
      Ho Hp.
    unfold Open. rewrite Ho. unfold configured in Hp. by rewrite Hp.
  - intros stage e. split; [done|apply errors_Is_wrap].
Qed.

Lemma stage_errors_wrapped_but_begin_and_commit_witness :
  WithTx background (pool_down conn_lost) (work_returns None)
  = (Return (Some conn_lost), None) ∧
  (∃ out rows l derr,
     QueryAny background (conn_of no_rows_close_fails) select_id_name []
     = (out, Some rows) ∧
     calls rows = l ++ [call_Close derr] ∧
     Forall (reported (error_of out)) l) ∧
  MySQLOpen env_unreachable "user@tcp(db)/t"
  = (None, Some (fmt_Errorf_w "pinging database" conn_lost)).
Proof.
  pose proof stage_errors_wrapped_but_begin_and_commit
    as (Hbegin & _ & _ & Hcursor & _ & Hping & _).
  split; [|split].
  - apply (Hbegin background (pool_down conn_lost) (work_returns None)
             conn_lost).
    reflexivity.
  - apply (Hcursor background (conn_of no_rows_close_fails) select_id_name []
             no_rows_close_fails).
    reflexivity.
  - eapply (Hping env_unreachable MySQLDriver "user@tcp(db)/t" MaxConn
              MaxLifetime Timeout); reflexivity.
Defined.

(** C6, as the claim states it, fails at the transaction runner, which adds
    no context to a failed begin, and at the deferred release of the cursor,
    whose failure after a failed scan reaches nobody. *)
Lemma begin_error_bare_and_release_error_dropped :
  (db_BeginTx (pool_down conn_lost) background serializable = inr conn_lost ∧
   WithTx background (pool_down conn_lost) (work_returns None)
   = (Return (Some conn_lost), None) ∧
   errors_Unwrap conn_lost = None ∧
   ∀ stage, conn_lost ≠ fmt_Errorf_w stage conn_lost) ∧
  (∃ err rows,
     QueryAnyRows background (conn_of two_rows_close_fails) select_id_name []
     = (Return ([], Some err), Some rows) ∧
     last (calls rows) = Some (call_Close (Some conn_lost)) ∧
     errors_Is err conn_lost = false).
Proof.
  split.
  - repeat split; try reflexivity. intros stage. discriminate.
  - eexists _, _. vm_compute. repeat split; reflexivity.
Qed.

(** * Further properties *)

(** ** [makeAny]: which value a key holds, and when it panics *)

Lemma makeAny_fold_None (values : list any) (l : list (nat * ColumnType)) :
  foldl (λ (acc : option Any) pc,
           res ← acc; v ← values !! pc.1; Some (<[Name pc.2 := v]> res))
        None l = None.
Proof. induction l as [|pc l IH]; [done|]. simpl. apply IH. Qed.

Lemma makeAny_fold_lookup (cols : list ColumnType) (values : list any) k
    (m r : Any) :
  foldl (λ acc pc,
           res ← acc; v ← values !! pc.1; Some (<[Name pc.2 := v]> res))
        (Some m) (imap (λ i c, (k + i, c)) cols) = Some r →
  (∀ i col, cols !! i = Some col →
     (∀ j col', i < j → cols !! j = Some col' → Name col' ≠ Name col) →
     r !! Name col = values !! (k + i)) ∧
  (∀ name, (∀ col, col ∈ cols → Name col ≠ name) → r !! name = m !! name).
Proof.
  revert k m. induction cols as [|c cols IH]; intros k m Hfold.
  - simpl in Hfold. injection Hfold as ->. split; [|done].
    intros i col Hi. by rewrite lookup_nil in Hi.
  - simpl in Hfold. rewrite Nat.add_0_r in Hfold.
    destruct (values !! k) as [v|] eqn:Hv; simpl in Hfold;
      [|by rewrite makeAny_fold_None in Hfold].
    rewrite (imap_ext _ (λ i c, (S k + i, c))) in Hfold.
    2:{ intros i c' _. simpl. f_equal. lia. }
    destruct (IH (S k) _ Hfold) as [Hlast Hother]. split.
    + intros [|i] col Hi Hlater; simpl in Hi.
      * injection Hi as ->. rewrite Nat.add_0_r, Hv.
        rewrite Hother; [by rewrite lookup_insert_eq|].
        intros col' Hin. apply list_elem_of_lookup in Hin as [j Hj].
        apply (Hlater (S j)); [lia|done].
      * replace (k + S i) with (S k + i) by lia. apply Hlast; [done|].
        intros j col' Hij Hj. apply (Hlater (S j)); [lia|done].
    + intros name Hname. rewrite Hother.
      * apply lookup_insert_ne. apply Hname. apply list_elem_of_here.
      * intros col Hin. apply Hname. by apply list_elem_of_further.
Qed.

Lemma makeAny_fold_short (cols : list ColumnType) (values : list any) k
    (acc : option Any) :
  k ≤ length values → length values < k + length cols →
  foldl (λ (acc : option Any) pc,
           res ← acc; v ← values !! pc.1; Some (<[Name pc.2 := v]> res))
        acc (imap (λ i c, (k + i, c)) cols) = None.
Proof.
  revert k acc. induction cols as [|c cols IH]; intros k acc Hk0 Hlen.
  - simpl in Hlen. lia.
  - simpl. rewrite Nat.add_0_r.
    rewrite (imap_ext _ (λ i c, (S k + i, c))).
    2:{ intros i c' _. simpl. f_equal. lia. }
    destruct (decide (length values ≤ k)) as [Hk|Hk].
    + rewrite (lookup_ge_None_2 values k Hk).
      destruct acc; simpl; apply makeAny_fold_None.
    + apply IH; simpl in Hlen; lia.
Qed.

(** X3. In the record [makeAny] builds, the name of a column holds the value
    at that column's position, provided no later column has the same name:
    of columns that share a name, the last one is the one kept. *)
Theorem makeAny_last_column_wins cols values rec i col :
  makeAny cols values = Some rec →
  cols !! i = Some col →
  (∀ j col', i < j → cols !! j = Some col' → Name col' ≠ Name col) →
  rec !! Name col = values !! i ∧ is_Some (values !! i).
Proof.
  intros Hmake Hi Hlater.
  destruct (makeAny_fold_lookup cols values 0 ∅ rec Hmake) as [Hlast _].
  split; [by apply (Hlast i col)|].
  apply lookup_lt_is_Some_2.
  destruct (decide (i < length values)) as [|Hge]; [done|].
  exfalso. unfold makeAny in Hmake.
  rewrite (makeAny_fold_short cols values 0) in Hmake; [done|lia|].
  apply lookup_lt_Some in Hi. simpl. lia.
Qed.

Lemma makeAny_last_column_wins_witness :
  ∃ rec, makeAny id_id [int64 1; string_v "a"] = Some rec ∧
         rec !! "id" = Some (string_v "a").
Proof.
  destruct (makeAny_dom id_id [int64 1; string_v "a"]) as (rec & Hrec & _);
    [simpl; lia|].
  exists rec. split; [exact Hrec|].
  destruct (makeAny_last_column_wins id_id [int64 1; string_v "a"] rec 1
              {| Name := "id"; ScanType := string_t |} Hrec eq_refl)
    as [H _]; [|exact H].
  intros j col' Hj Hcol'. destruct j as [|[|j]]; [lia|lia|done].
Defined.

(** X4. [makeAny] panics, on an index out of range, exactly when it is given
    fewer values than there are columns; values beyond the columns are
    ignored. *)
Theorem makeAny_panics_iff_values_short cols values :
  makeAny cols values = None ↔ length values < length cols.
Proof.
  split.
  - intros Hnone. destruct (decide (length values < length cols)); [done|].
    destruct (makeAny_dom cols values) as (rec & Hrec & _); [lia|congruence].
  - intros Hlt. apply (makeAny_fold_short cols values 0); [lia|done].
Qed.

(** ** [Any.String] *)

(** X1. [String] answers the empty string for a key the record does not
    hold and for a key that holds nil, whatever the renderings of the
    standard library are; so it cannot tell apart a missing key, a nil
    value and an empty string. *)
Theorem Any_String_missing_or_nil fmt (m : Any) key :
  m !! key = None ∨ m !! key = Some nil_any →
  Any_String fmt m key = "" ∧
  Any_String fmt m key = Any_String fmt (<[key := string_v ""]> m) key.
Proof.
  unfold Any_String. rewrite lookup_insert_eq. by intros [-> | ->].
Qed.

Lemma Any_String_missing_or_nil_witness :
  Any_String fmt_marks (<["id" := nil_any]> ∅) "name" = "" ∧
  Any_String fmt_marks (<["id" := nil_any]> ∅) "id" = "".
Proof.
  split.
  - apply (Any_String_missing_or_nil fmt_marks (<["id" := nil_any]> ∅) "name").
    left. reflexivity.
  - apply (Any_String_missing_or_nil fmt_marks (<["id" := nil_any]> ∅) "id").
    right. reflexivity.
Defined.

(** X2. [makeAny] then [String]: for a column whose value is a Go string
    and whose name no later column has, [String] of the record at that name
    is that string, unchanged and whatever the renderings are. *)
Theorem Any_String_of_makeAny fmt cols values rec i col s :
  makeAny cols values = Some rec →
  cols !! i = Some col → values !! i = Some (string_v s) →
  (∀ j col', i < j → cols !! j = Some col' → Name col' ≠ Name col) →
  Any_String fmt rec (Name col) = s.
Proof.
  intros Hmake Hi Hv Hlater.
  destruct (makeAny_fold_lookup cols values 0 ∅ rec Hmake) as [Hlast _].
  unfold Any_String. rewrite (Hlast i col Hi Hlater). simpl. by rewrite Hv.
Qed.

Lemma Any_String_of_makeAny_witness :
  ∃ rec, makeAny id_name [int64 1; string_v "a"] = Some rec ∧
         Any_String fmt_marks rec "name" = "a".
Proof.
  destruct (makeAny_dom id_name [int64 1; string_v "a"]) as (rec & Hrec & _);
    [simpl; lia|].
  exists rec. split; [exact Hrec|].
  apply (Any_String_of_makeAny fmt_marks id_name [int64 1; string_v "a"] rec 1
           {| Name := "name"; ScanType := string_t |} "a" Hrec eq_refl eq_refl).
  intros j col' Hj Hcol'. destruct j as [|[|j]]; [lia|lia|done].
Defined.

(** ** Rows and records *)

Lemma Rows_Next_false_pending rs rs1 :
  Rows_Next rs = (false, rs1) → closed rs = false → pending rs = [].
Proof.
  unfold Rows_Next. intros H Hc. rewrite Hc in H.
  by destruct (pending rs).
Qed.

Lemma Rows_Next_true_pending rs rs1 :
  Rows_Next rs = (true, rs1) →
  ∃ row, pending rs = row :: pending rs1 ∧ closed rs1 = false.
Proof.
  unfold Rows_Next. destruct (closed rs); [done|].
  destruct (pending rs) as [|row rest]; [done|].
  intros [= <-]. by exists row.
Qed.

(** The records the loop adds are as many as the rows it took off the
    cursor: at most the rows pending, all of them outside single mode, and
    none only when no row was pending. *)
Lemma scanLoop_rows cols single res rows :
  closed rows = false →
  ∀ res', (scanLoop cols single res rows).1 = loop_done res' →
  ∃ n, length res' = length res + n ∧ n ≤ length (pending rows) ∧
       (single = false → n = length (pending rows)) ∧
       (n = 0 → pending rows = []).
Proof.
  apply (scanLoop_cases cols single
           (λ res rows r,
              closed rows = false →
              ∀ res', r.1 = loop_done res' →
              ∃ n, length res' = length res + n ∧ n ≤ length (pending rows) ∧
                   (single = false → n = length (pending rows)) ∧
                   (n = 0 → pending rows = []))); clear res rows.
  - intros res rows rows1 Hnext Hc res' [= <-].
    rewrite (Rows_Next_false_pending _ _ Hnext Hc). exists 0. simpl.
    repeat split; try done; lia.
  - intros res rows rows1 err rows2 _ _ _ res' [=].
  - intros res rows rows1 rows2 rec Hnext _ _ Hs _ res' [= <-].
    destruct (Rows_Next_true_pending _ _ Hnext) as (row & -> & _).
    exists 1. rewrite length_app. simpl. repeat split; try lia; congruence.
  - intros res rows rows1 rows2 rec Hnext Hscan _ Hs IH _ res' Hres'.
    destruct (Rows_Next_true_pending _ _ Hnext) as (row & Hp & Hc1).
    destruct (Rows_Scan_spec _ _ _ _ Hscan) as (_ & Hp2 & Hc2 & _).
    destruct (IH ltac:(congruence) res' Hres') as (n & Hlen & Hle & Hall & _).
    exists (S n). rewrite length_app in Hlen. simpl in Hlen.
    rewrite Hp. simpl. rewrite Hp2 in Hle, Hall.
    repeat split; try lia. intros _. specialize (Hall Hs). lia.
Qed.

Lemma queryAnyRows_body_rows single rows res rows' :
  queryAnyRows_body single rows = (Return (res, None), rows') →
  length res ≤ length (pending rows) ∧
  (single = false → length res = length (pending rows)) ∧
  (res = [] → pending rows = []).
Proof.
  unfold queryAnyRows_body.
  destruct (Rows_ColumnTypes rows) as [[cols [e|]] rows1] eqn:Hct; [done|].
  destruct (Rows_ColumnTypes_spec _ _ _ _ Hct)
    as (_ & Hp1 & Hc1 & _ & _ & _ & Hcols).
  destruct Hcols as [_ Hc]; [done|].
  pose proof (scanLoop_rows cols single [] rows1 ltac:(congruence)) as Hrows.
  pose proof (scanLoop_post cols single [] rows1) as Hpost.
  destruct (scanLoop cols single [] rows1) as [[res'|ret|r] rows2]; [| |done].
  2:{ destruct Hpost as (_ & _ & new & _ & _ & _ & new' & e & _ & _ & ->).
      done. }
  destruct (Rows_Close rows2) as [[e|] rows3]; [done|].
  destruct (Rows_Err rows3) as [[e|] rows4]; [done|].
  intros [= <- _].
  destruct (Hrows res' eq_refl) as (n & Hlen & Hle & Hall & Hzero).
  simpl in Hlen. rewrite Hp1 in *. subst n.
  repeat split; try done. intros ->. by apply Hzero.
Qed.

Lemma queryAnyRows_rows ctx conn query single args ri res rows :
  Tx_query conn ctx query args = inl ri →
  queryAnyRows ctx conn query single args = (Return (res, None), Some rows) →
  length res ≤ length (data ri) ∧
  (single = false → length res = length (data ri)) ∧
  (res = [] → data ri = []).
Proof.
  intros Hq.
  destruct (Tx_QueryContext_spec _ _ _ _ _ Hq) as (rows0 & Hqc & _ & Hp0 & _).
  unfold queryAnyRows. rewrite Hqc.
  destruct (queryAnyRows_body single rows0) as [out rows1] eqn:Hbody.
  destruct (Rows_Close rows1) as [derr rows2].
  intros [= -> _]. rewrite <- Hp0.
  by apply (queryAnyRows_body_rows single rows0 res rows1).
Qed.

(** X8. When [QueryAnyRows] returns without an error, it returns exactly
    one record for each row of the result set. *)
Theorem QueryAnyRows_one_record_per_row ctx conn query args ri res rows :
  Tx_query conn ctx query args = inl ri →
  QueryAnyRows ctx conn query args = (Return (res, None), Some rows) →
  length res = length (data ri).
Proof.
  intros Hq Hrun.
  destruct (queryAnyRows_rows ctx conn query false args ri res rows Hq Hrun)
    as (_ & Hall & _).
  by apply Hall.
Qed.

Lemma three_bare_rows_run :
  ∃ rows, QueryAnyRows background (conn_of three_bare_rows) select_id_name []
          = (Return ([∅; ∅; ∅], None), Some rows).
Proof. eexists. vm_compute. reflexivity. Defined.

Lemma QueryAnyRows_one_record_per_row_witness :
  length ([∅; ∅; ∅] : list Any) = length (data three_bare_rows).
Proof.
  destruct three_bare_rows_run as [rows Hrun].
  exact (QueryAnyRows_one_record_per_row background (conn_of three_bare_rows)
           select_id_name [] three_bare_rows [∅; ∅; ∅] rows eq_refl Hrun).
Defined.

(** X9. [QueryAny] answers the bare [sql.ErrNoRows] only for a result set
    without rows, and a record only for a result set with a row: the error
    of a failed stage is wrapped and is never [sql.ErrNoRows] itself. *)
Theorem QueryAny_ErrNoRows_means_no_rows ctx conn query args ri out rows :
  Tx_query conn ctx query args = inl ri →
  QueryAny ctx conn query args = (out, Some rows) →
  (out = Return (None, Some sql_ErrNoRows) → data ri = []) ∧
  (∀ rec, out = Return (Some rec, None) → data ri ≠ []).
Proof.
  intros Hq. unfold QueryAny.
  destruct (queryAnyRows ctx conn query true args) as [out0 rows0] eqn:Hrun.
  destruct (queryAnyRows_path ctx conn query true args ri Hq)
    as (out1 & rows1 & l0 & new & rel & derr & Hrun1 & _ & _ & _ & _ &
        _ & _ & Hpath & _ & _).
  rewrite Hrun in Hrun1. injection Hrun1 as -> ->.
  destruct out1 as [[res [err|]]|r].
  - intros [= <- <-]. split; [|done]. intros [= ->].
    destruct Hpath; try done. by destruct e.
  - pose proof (queryAnyRows_rows ctx conn query true args ri res rows1
                  Hq Hrun) as (Hle & _ & Hzero).
    destruct res as [|rec0 res]; intros [= <- <-].
    + split; [|done]. intros _. by apply Hzero.
    + split; [done|]. intros rec _ Hdata. rewrite Hdata in Hle. simpl in Hle.
      lia.
  - intros [= <- <-]. done.
Qed.

Lemma QueryAny_ErrNoRows_means_no_rows_witness :
  ∃ out rows,
    QueryAny background (conn_of no_rows) select_id_name [] = (out, Some rows) ∧
    (out = Return (None, Some sql_ErrNoRows) → data no_rows = []) ∧
    (∀ rec, out = Return (Some rec, None) → data no_rows ≠ []).
Proof.
  eexists _, _. split; [vm_compute; reflexivity|].
  eapply (QueryAny_ErrNoRows_means_no_rows background (conn_of no_rows)
            select_id_name [] no_rows); [reflexivity|].
  vm_compute. reflexivity.
Defined.

(** ** What the two helpers return *)



(** ** Result sets that have a column *)



(** ** Single mode *)

Lemma Rows_Next_takes_one rs ok rs1 :
  Rows_Next rs = (ok, rs1) → length (pending rs) ≤ S (length (pending rs1)).
Proof.
  unfold Rows_Next. destruct (closed rs); [intros [= _ <-]; simpl; lia|].
  destruct (pending rs) as [|row rest] eqn:Hp.
  - intros [= _ <-]. simpl. lia.
  - intros [= _ <-]. simpl. lia.
Qed.

Lemma Rows_Err_pending rs err rs1 :
  Rows_Err rs = (err, rs1) → pending rs1 = pending rs.
Proof. unfold Rows_Err. by intros [= _ <-]. Qed.

Lemma scanLoop_single_pending cols res rows :
  length (pending rows)
  ≤ S (length (pending (scanLoop cols true res rows).2)).
Proof.
  rewrite scanLoop_step.
  destruct (Rows_Next rows) as [ok rows1] eqn:Hnext.
  pose proof (Rows_Next_takes_one _ _ _ Hnext) as Hle.
  destruct ok; [|done].
  destruct (Rows_Scan (makeRs cols) rows1) as [err rows2] eqn:Hscan.
  destruct (Rows_Scan_spec _ _ _ _ Hscan) as (_ & Hp & _).
  destruct err; [simpl; by rewrite Hp|].
  destruct (makeAny cols (makeRs cols)); simpl; by rewrite Hp.
Qed.

Lemma queryAnyRows_body_single_pending rows :
  length (pending rows)
  ≤ S (length (pending (queryAnyRows_body true rows).2)).
Proof.
  unfold queryAnyRows_body.
  destruct (Rows_ColumnTypes rows) as [[cols err] rows1] eqn:Hct.
  destruct (Rows_ColumnTypes_spec _ _ _ _ Hct) as (_ & Hp1 & _).
  destruct err; [simpl; rewrite Hp1; lia|].
  pose proof (scanLoop_single_pending cols [] rows1) as Hle.
  rewrite Hp1 in Hle.
  destruct (scanLoop cols true [] rows1) as [[res|ret|r] rows2];
    simpl in Hle; try (simpl; lia).
  destruct (Rows_Close rows2) as [cerr rows3] eqn:Hclose.
  destruct (Rows_Close_spec _ _ _ Hclose) as (_ & Hp3 & _).
  rewrite <- Hp3 in Hle.
  destruct cerr; [simpl; lia|].
  destruct (Rows_Err rows3) as [e rows4] eqn:Herr.
  pose proof (Rows_Err_pending _ _ _ Herr) as Hp4.
  rewrite <- Hp4 in Hle.
  destruct e; simpl; lia.
Qed.

(** X6. [QueryAny] takes one row at most off the cursor, whatever the
    result set: its log has at most one [Next] and at most one [Scan], and
    the cursor it leaves still holds every row but, at most, the first. *)
Theorem QueryAny_takes_one_row_at_most ctx conn query args ri :
  Tx_query conn ctx query args = inl ri →
  ∃ out rows,
    QueryAny ctx conn query args = (out, Some rows) ∧
    count_if is_Next (calls rows) ≤ 1 ∧ count_if is_Scan (calls rows) ≤ 1 ∧
    length (data ri) ≤ S (length (pending rows)).
Proof.
  intros Hq.
  destruct (queryAnyRows_records ctx conn query true args ri Hq)
    as (out & rows & Hrun & _ & _ & Hcount).
  destruct (QueryAny_queryAnyRows _ _ _ _ _ _ Hrun) as (out1 & Hrun1 & _).
  exists out1, rows. split; [done|].
  destruct (Hcount eq_refl) as [Hn Hs]. split; [done|]. split; [done|].
  destruct (Tx_QueryContext_spec _ _ _ _ _ Hq) as (rows0 & Hqc & _ & Hp0 & _).
  unfold queryAnyRows in Hrun. rewrite Hqc in Hrun.
  pose proof (queryAnyRows_body_single_pending rows0) as Hle.
  destruct (queryAnyRows_body true rows0) as [out' rows1].
  destruct (Rows_Close rows1) as [derr rows2] eqn:Hclose.
  destruct (Rows_Close_spec _ _ _ Hclose) as (_ & Hp2 & _).
  injection Hrun as _ <-. simpl in Hle. rewrite Hp2, <- Hp0. exact Hle.
Qed.

Lemma QueryAny_takes_one_row_at_most_witness :
  ∃ out rows,
    QueryAny background (conn_of three_bare_rows) select_id_name []
    = (out, Some rows) ∧
    count_if is_Next (calls rows) ≤ 1 ∧ count_if is_Scan (calls rows) ≤ 1 ∧
    length (data three_bare_rows) ≤ S (length (pending rows)).
Proof.
  exact (QueryAny_takes_one_row_at_most background (conn_of three_bare_rows)
           select_id_name [] three_bare_rows eq_refl).
Defined.

(** ** The order of the calls on the cursor *)

Lemma scan_after_Next_weaken b l :
  scan_after_Next false l = true → scan_after_Next b l = true.
Proof. by destruct l as [|[] l]. Qed.

Lemma scan_after_Next_app b l1 l2 :
  scan_after_Next b l1 = true → scan_after_Next false l2 = true →
  scan_after_Next b (l1 ++ l2) = true.
Proof.
  revert b. induction l1 as [|c l1 IH]; intros b H1 H2.
  - by apply scan_after_Next_weaken.
  - destruct c; simpl in *; try by apply IH.
    apply andb_true_iff in H1 as [-> H1]. by apply IH.
Qed.

Lemma scans_in_order_step rs rs1 l :
  calls rs1 = calls rs ++ l → scan_after_Next false l = true →
  scans_in_order rs → scans_in_order rs1.
Proof.
  unfold scans_in_order. intros -> Hl H. by apply scan_after_Next_app.
Qed.

Lemma Rows_Close_in_order rs err rs1 :
  Rows_Close rs = (err, rs1) → scans_in_order rs → scans_in_order rs1.
Proof.
  intros H. destruct (Rows_Close_spec _ _ _ H) as (_ & _ & _ & Hl & _).
  apply (scans_in_order_step _ _ _ Hl). by destruct (closed rs).
Qed.

Lemma scanLoop_in_order cols single res rows :
  scans_in_order rows → scans_in_order (scanLoop cols single res rows).2.
Proof.
  apply (scanLoop_cases cols single
           (λ res rows r, scans_in_order rows → scans_in_order r.2));
    clear res rows.
  - intros res rows rows1 Hnext.
    destruct (Rows_Next_spec _ _ _ Hnext) as (_ & (rel & Hl & Hrel) & _).
    apply (scans_in_order_step _ _ _ Hl).
    by destruct Hrel as [->|(cerr & -> & _)].
  - intros res rows rows1 err rows2 Hnext Hscan.
    pose proof (Rows_Next_true_calls _ _ Hnext) as Hl1.
    destruct (Rows_Scan_spec _ _ _ _ Hscan) as (_ & _ & _ & Hl2).
    apply (scans_in_order_step _ _
             [call_Next true; call_Scan (makeRs cols) (Some err)]); [|done].
    simpl. by rewrite Hl2, Hl1, <- app_assoc.
  - intros res rows rows1 rows2 rec Hnext Hscan _ _.
    pose proof (Rows_Next_true_calls _ _ Hnext) as Hl1.
    destruct (Rows_Scan_spec _ _ _ _ Hscan) as (_ & _ & _ & Hl2).
    apply (scans_in_order_step _ _
             [call_Next true; call_Scan (makeRs cols) None]); [|done].
    simpl. by rewrite Hl2, Hl1, <- app_assoc.
  - intros res rows rows1 rows2 rec Hnext Hscan _ _ IH Hin.
    apply IH.
    pose proof (Rows_Next_true_calls _ _ Hnext) as Hl1.
    destruct (Rows_Scan_spec _ _ _ _ Hscan) as (_ & _ & _ & Hl2).
    apply (scans_in_order_step rows _
             [call_Next true; call_Scan (makeRs cols) None]); [|done|done].
    simpl. by rewrite Hl2, Hl1, <- app_assoc.
Qed.

Lemma queryAnyRows_body_in_order single rows :
  scans_in_order rows → scans_in_order (queryAnyRows_body single rows).2.
Proof.
  intros Hin. unfold queryAnyRows_body.
  destruct (Rows_ColumnTypes rows) as [[cols err] rows1] eqn:Hct.
  destruct (Rows_ColumnTypes_spec _ _ _ _ Hct) as (_ & _ & _ & _ & _ & Hl1 & _).
  assert (scans_in_order rows1) as Hin1
    by (by apply (scans_in_order_step _ _ _ Hl1)).
  destruct err; [done|].
  pose proof (scanLoop_in_order cols single [] rows1 Hin1) as Hin2.
  destruct (scanLoop cols single [] rows1) as [[res|ret|r] rows2]; try done.
  destruct (Rows_Close rows2) as [cerr rows3] eqn:Hclose.
  pose proof (Rows_Close_in_order _ _ _ Hclose Hin2) as Hin3.
  destruct cerr; [done|].
  destruct (Rows_Err rows3) as [e rows4] eqn:Herr.
  destruct (Rows_Err_spec _ _ _ Herr) as (_ & _ & Hl4).
  assert (scans_in_order rows4) by (by apply (scans_in_order_step _ _ _ Hl4)).
  by destruct e.
Qed.

Lemma queryAnyRows_in_order ctx conn query single args ri :
  Tx_query conn ctx query args = inl ri →
  ∃ out rows, queryAnyRows ctx conn query single args = (out, Some rows) ∧
              scans_in_order rows.
Proof.
  intros Hq. unfold queryAnyRows, Tx_QueryContext. rewrite Hq.
  set (rows0 := match ctx_Err ctx with
                | Some e => (Rows_close (Some e) (new_Rows ri)).2
                | None => new_Rows ri
                end).
  assert (scans_in_order rows0) as Hin0.
  { unfold rows0. by destruct (ctx_Err ctx). }
  replace (match ctx_Err ctx with
           | Some e => inl (Rows_close (Some e) (new_Rows ri)).2
           | None => inl (new_Rows ri)
           end) with (@inl Rows error rows0) by (unfold rows0; by destruct (ctx_Err ctx)).
  pose proof (queryAnyRows_body_in_order single rows0 Hin0) as Hin1.
  destruct (queryAnyRows_body single rows0) as [out rows1].
  destruct (Rows_Close rows1) as [derr rows2] eqn:Hclose.
  exists out, rows2. split; [done|].
  by apply (Rows_Close_in_order _ _ _ Hclose).
Qed.

(** X10. Both helpers keep to the protocol of the cursor: in the log of
    every call, each [Scan] comes right after a [Next] that answered true;
    no row is scanned twice and none is scanned after the rows ended. *)
Theorem every_Scan_follows_a_Next ctx conn query args ri :
  Tx_query conn ctx query args = inl ri →
  (∃ out rows, QueryAnyRows ctx conn query args = (out, Some rows) ∧
               scan_after_Next false (calls rows) = true) ∧
  (∃ out rows, QueryAny ctx conn query args = (out, Some rows) ∧
               scan_after_Next false (calls rows) = true).
Proof.
  intros Hq. split.
  - apply (queryAnyRows_in_order ctx conn query false args ri Hq).
  - destruct (queryAnyRows_in_order ctx conn query true args ri Hq)
      as (out & rows & Hrun & Hin).
    destruct (QueryAny_queryAnyRows _ _ _ _ _ _ Hrun) as (out1 & Hrun1 & _).
    by exists out1, rows.
Qed.

Lemma every_Scan_follows_a_Next_witness :
  (∃ out rows,
     QueryAnyRows background (conn_of three_bare_rows) select_id_name []
     = (out, Some rows) ∧
     scan_after_Next false (calls rows) = true) ∧
  (∃ out rows,
     QueryAny background (conn_of three_bare_rows) select_id_name []
     = (out, Some rows) ∧
     scan_after_Next false (calls rows) = true).
Proof.
  exact (every_Scan_follows_a_Next background (conn_of three_bare_rows)
           select_id_name [] three_bare_rows eq_refl).
Defined.

(** ** More of the transaction runner *)

(** X11. [WithTx] returns nil exactly when the transaction began, the unit
    of work returned nil and the commit succeeded: a nil result means the
    work is committed. *)
Theorem WithTx_nil_iff_committed ctx db f :
  (WithTx ctx db f).1 = Return None ↔
  ∃ tx tx1, db_BeginTx db ctx serializable = inl tx ∧
            f tx = (Return None, tx1) ∧ (Tx_Commit tx1).1 = None.
Proof.
  run_WithTx. split.
  - destruct (db_BeginTx db ctx serializable) as [tx|e] eqn:Hbegin; [|done].
    destruct (f tx) as [[[err|]|r] tx1] eqn:Hf.
    + destruct (Tx_Rollback tx1) as [rb tx2].
      by rewrite errors_Join_first.
    + destruct (Tx_Commit tx1) as [cerr tx2] eqn:Hc. intros H.
      simpl in H. injection H as ->.
      exists tx, tx1. split; [done|]. split; [done|]. by rewrite Hc.
    + destruct (Tx_Rollback tx1) as [rb tx2].
      by rewrite errors_Join_first.
  - intros (tx & tx1 & -> & -> & Hc).
    destruct (Tx_Commit tx1) as [cerr tx2]. simpl in *. by subst.
Qed.

(** X12. Whenever the transaction began, [WithTx] ends it by exactly one
    call, whatever the unit of work did: a commit when the work returned
    nil, a rollback when it returned an error or panicked; and the
    transaction it leaves is over. *)
Theorem WithTx_ends_the_transaction_once ctx db f tx ended tx1 :
  db_BeginTx db ctx serializable = inl tx →
  f tx = (ended, tx1) →
  ∃ tx2 c,
    (WithTx ctx db f).2 = Some tx2 ∧
    tx_calls tx2 = tx_calls tx1 ++ [c] ∧
    done tx2 = true ∧
    match ended with
    | Return None => ∃ err, c = call_Commit err
    | _ => ∃ err, c = call_Rollback err
    end.
Proof.
  intros Hbegin Hf. run_WithTx. rewrite Hbegin, Hf.
  destruct ended as [[err|]|r].
  - simpl. eexists _, _. repeat split. by eexists.
  - simpl. eexists _, _. repeat split. by eexists.
  - destruct (Tx_Rollback tx1) as [rb tx2] eqn:Hrb.
    rewrite errors_Join_first. simpl.
    unfold Tx_Rollback in Hrb. injection Hrb as <- <-.
    eexists _, _. repeat split. by eexists.
Qed.

Lemma WithTx_ends_the_transaction_once_witness :
  ∃ tx2 c,
    (WithTx background (pool_of (fresh_tx None None))
       (work_panics (fault_string "oops"))).2 = Some tx2 ∧
    tx_calls tx2 = [] ++ [c] ∧
    done tx2 = true ∧
    ∃ err, c = call_Rollback err.
Proof.
  exact (WithTx_ends_the_transaction_once background
           (pool_of (fresh_tx None None)) (work_panics (fault_string "oops"))
           (fresh_tx None None) (Panic (fault_string "oops"))
           (fresh_tx None None) eq_refl eq_refl).
Defined.

(** X13. A unit of work that has itself ended the transaction makes
    [WithTx] report [sql.ErrTxDone]: alone when the work returned nil, and
    joined behind the work's error when it returned one. The call of
    [WithTx] still reaches the transaction, and changes nothing but its
    log. *)
Theorem WithTx_on_a_transaction_that_is_over ctx db f tx err tx1 :
  db_BeginTx db ctx serializable = inl tx →
  f tx = (Return err, tx1) → done tx1 = true →
  (WithTx ctx db f).1
  = Return (Some match err with
                 | None => sql_ErrTxDone
                 | Some e => joinError [e; sql_ErrTxDone]
                 end).
Proof.
  intros Hbegin Hf Hdone. run_WithTx. rewrite Hbegin, Hf.
  destruct err as [e|]; simpl; by rewrite Hdone.
Qed.

Lemma WithTx_on_a_transaction_that_is_over_witness :
  (WithTx background (pool_of (fresh_tx None None)) (work_commits None)).1
  = Return (Some sql_ErrTxDone).
Proof.
  exact (WithTx_on_a_transaction_that_is_over background
           (pool_of (fresh_tx None None)) (work_commits None)
           (fresh_tx None None) None (Tx_Commit (fresh_tx None None)).2
           eq_refl eq_refl eq_refl).
Defined.

(** ** More of the pool opener *)


(** X15. [MySQLOpen] opens the driver "mysql" with the defaults of the
    package: the pool it returns is capped at 25 connections, open and idle,
    reuses a connection for 5 minutes at most, and has answered a ping
    under a timeout of 5 seconds (durations in nanoseconds). *)
Theorem MySQLOpen_defaults env dataSourceName db :
  (MySQLOpen env dataSourceName).1 = Some db →
  db_driverName db = "mysql" ∧
  db_dataSourceName db = dataSourceName ∧
  MaxOpenConns db = Some 25%Z ∧
  MaxIdleConns db = Some 25%Z ∧
  ConnMaxLifetime db = Some 300000000000%Z ∧
  env_Ping env db 5000000000%Z = None ∧
  (MySQLOpen env dataSourceName).2 = None.
Proof.
  unfold MySQLOpen, Open, sql_Open.
  destruct (env_Open env MySQLDriver dataSourceName) as [e|]; [done|].
  match goal with
  | |- context [env_Ping env ?db Timeout] =>
      destruct (env_Ping env db Timeout) as [e|] eqn:Hp
  end; [done|].
  intros [= <-]. by repeat split.
Qed.

Lemma MySQLOpen_defaults_witness :
  ∃ db, (MySQLOpen env_up "user@tcp(db)/t").1 = Some db ∧
        MaxOpenConns db = Some 25%Z ∧
        ConnMaxLifetime db = Some 300000000000%Z.
Proof.
  eexists. split; [reflexivity|].
  destruct (MySQLOpen_defaults env_up "user@tcp(db)/t" _ eq_refl)
    as (_ & _ & Hopen & _ & Hlife & _).
  split; [exact Hopen|exact Hlife].
Defined.

(** ** A context that is done *)


